(** * hyper-text: the replicated store, the block segmenter, the viewport
      window and the view/model reconciler of the editor.

    The development follows the TypeScript sources:
    - the hook [useLoroEditor] is the document store;
    - [parseContentIntoBlocks] (the same text in the [Editor] and the
      [VirtualizedEditor] components) is the segmenter;
    - [saveCursorPosition], [restoreCursorPosition], the content-sync effect
      and [handleInput] of [EditorComponent] are the reconciler.

    Browser and library services the sources call (the HTML parser, the
    replicated-text library, the list virtualizer) are not part of the
    repository; each is introduced where it is used, with a note saying what
    is assumed about it. *)

From Stdlib Require Import List Bool Arith Lia ZArith Ascii String.
From Stdlib Require Import DecimalString DecimalNat FinFun Finite.
From Stdlib Require Strings.Byte.
Import ListNotations.

Set Warnings "-register-all,-abstract-large-number".

(* ===================================================================== *)
(** * JavaScript strings *)
(* ===================================================================== *)

(** A JavaScript string is the list of its code units.  The model covers
    the code units below 256, which is what [ascii] holds: every statement
    below is about strings of such code units.  None of them is a
    surrogate, so each string is well-formed and the replicated document,
    which stores Unicode scalar values, keeps it as it is; a string with a
    lone surrogate, which the document would store with U+FFFD in its
    place, is outside the model. *)
Definition jsstring := list ascii.

(** A literal is written [js "..."]. *)
Definition js (s : string) : jsstring := list_ascii_of_string s.

Definition charCode (c : ascii) : nat := nat_of_ascii c.

(** [String.prototype.toLowerCase] on one code unit: A-Z, and the Latin-1
    capitals U+00C0-U+00DE except the multiplication sign U+00D7. *)
Definition lower_char (c : ascii) : ascii :=
  let n := charCode c in
  if ((65 <=? n) && (n <=? 90)) || ((192 <=? n) && (n <=? 222) && negb (n =? 215))
  then ascii_of_nat (n + 32) else c.

Definition toLowerCase (s : jsstring) : jsstring := map lower_char s.

(** White space and line terminators of ECMAScript below 256:
    TAB, LF, VT, FF, CR, SP and NBSP. *)
Definition is_ws (c : ascii) : bool :=
  let n := charCode c in
  ((9 <=? n) && (n <=? 13)) || (n =? 32) || (n =? 160).

Fixpoint trimStart (s : jsstring) : jsstring :=
  match s with
  | c :: s' => if is_ws c then trimStart s' else s
  | [] => []
  end.

Definition trimEnd (s : jsstring) : jsstring := rev (trimStart (rev s)).

(** [String.prototype.trim]. *)
Definition trim (s : jsstring) : jsstring := trimEnd (trimStart s).

(** A string is truthy when it is not empty. *)
Definition truthy (s : jsstring) : bool :=
  match s with [] => false | _ :: _ => true end.

Definition jsstring_eqb (a b : jsstring) : bool :=
  if list_eq_dec ascii_dec a b then true else false.

(** [Array.prototype.includes] on an array of strings. *)
Definition includes (l : list jsstring) (s : jsstring) : bool :=
  existsb (jsstring_eqb s) l.

(** [Number.prototype.toString] of a non-negative integer (a counter, far
    below 2^53): its decimal digits. *)
Definition Number_toString (n : nat) : jsstring :=
  js (NilEmpty.string_of_uint (Nat.to_uint n)).

(** Removal of every white-space code unit: two strings are equal up to
    white space when their images are equal. *)
Definition strip_ws (s : jsstring) : jsstring := filter (fun c => negb (is_ws c)) s.

Definition ws_equiv (a b : jsstring) : Prop := strip_ws a = strip_ws b.

(* ===================================================================== *)
(** * The DOM *)
(* ===================================================================== *)

(** The namespaces of the elements the HTML parser creates. *)
Inductive namespace := HTML | SVG | MathML.

(** The nodes a parsed HTML body holds.  An element has its namespace and
    its local name; the parser gives it no prefix, so its qualified name is
    its local name.  [data] is the character data of a text or comment
    node. *)
Inductive node : Type :=
| Element (namespaceURI : namespace) (localName : jsstring)
          (attributes : list (jsstring * jsstring)) (childNodes : list node)
| Text (data : jsstring)
| Comment (data : jsstring).

(** ASCII upper case: a-z only. *)
Definition upper_ascii (c : ascii) : ascii :=
  let n := charCode c in
  if (97 <=? n) && (n <=? 122) then ascii_of_nat (n - 32) else c.

(** [element.tagName] in an HTML document: the qualified name, in ASCII
    upper case when the element is in the HTML namespace. *)
Definition tagName (ns : namespace) (localName : jsstring) : jsstring :=
  match ns with
  | HTML => map upper_ascii localName
  | _ => localName
  end.

(** [localName] is one of [names] and the element is an HTML element. *)
Definition html_element (names : list jsstring) (ns : namespace) (localName : jsstring)
  : bool :=
  match ns with
  | HTML => includes names localName
  | _ => false
  end.

(** What [DOMParser.parseFromString(html, 'text/html')] returns, as far as
    the editor reads it: the child nodes of [doc.body]. *)
Record document := { body_childNodes : list node }.

Definition quot : ascii := ascii_of_nat 34.
Definition nbsp : ascii := ascii_of_nat 160.

(** Escaping of the HTML fragment serialisation algorithm. *)
Definition escape_char (attribute_mode : bool) (c : ascii) : jsstring :=
  if ascii_dec c "&"%char then js "&amp;"
  else if ascii_dec c nbsp then js "&nbsp;"
  else if attribute_mode then
    (if ascii_dec c quot then js "&quot;" else [c])
  else if ascii_dec c "<"%char then js "&lt;"
  else if ascii_dec c ">"%char then js "&gt;"
  else [c].

Definition escape (attribute_mode : bool) (s : jsstring) : jsstring :=
  flat_map (escape_char attribute_mode) s.

Definition void_elements : list jsstring :=
  map js ["area"; "base"; "basefont"; "bgsound"; "br"; "col"; "embed";
          "frame"; "hr"; "img"; "input"; "keygen"; "link"; "meta"; "param";
          "source"; "track"; "wbr"]%string.

(** Elements whose text children are serialised without escaping. *)
Definition raw_text_elements : list jsstring :=
  map js ["style"; "script"; "xmp"; "iframe"; "noembed"; "noframes";
          "plaintext"]%string.

Definition serialize_attribute (a : jsstring * jsstring) : jsstring :=
  js " " ++ fst a ++ js "=" ++ [quot] ++ escape true (snd a) ++ [quot].

(** [serialize raw n]: the markup of [n]; [raw] says that the parent is a
    raw-text element.  On an element this is [element.outerHTML]: the tag
    is the local name as it is, and only HTML elements are void or hold raw
    text. *)
Fixpoint serialize (raw : bool) (n : node) : jsstring :=
  match n with
  | Element ns name attrs children =>
      js "<" ++ name ++ flat_map serialize_attribute attrs ++ js ">" ++
      (if html_element void_elements ns name then []
       else flat_map (serialize (html_element raw_text_elements ns name)) children
            ++ js "</" ++ name ++ js ">")
  | Text data => if raw then data else escape false data
  | Comment data => js "<!--" ++ data ++ js "-->"
  end.

Definition outerHTML (n : node) : jsstring := serialize false n.

(** [element.innerHTML] of an element that is not a raw-text element, given
    its children. *)
Definition innerHTML (children : list node) : jsstring :=
  flat_map (serialize false) children.

(** The data of the text nodes of [n], in document order: what
    [Range.toString] collects from a node the range contains. *)
Fixpoint text_of (n : node) : jsstring :=
  match n with
  | Element _ _ _ children => flat_map text_of children
  | Text data => data
  | Comment _ => []
  end.

(** [node.textContent]. *)
Definition textContent (n : node) : jsstring :=
  match n with
  | Comment data => data
  | _ => text_of n
  end.

(* ===================================================================== *)
(** * The block segmenter (parseContentIntoBlocks) *)
(* ===================================================================== *)

(** The block kinds; [list_] is the kind 'list'. *)
Inductive block_type := text | heading | list_ | code | blockquote.

Record EditorBlock := {
  id : jsstring;
  content : jsstring;
  type : block_type
}.

(** [a || b] on strings. *)
Definition or_string (a b : jsstring) : jsstring := if truthy a then a else b.

(** The state of one pass: the array [blocks] and the counter [blockId]. *)
Definition pass := (list EditorBlock * nat)%type.

(** [blocks.push({ id: `block-${blockId++}`, content, type })]. *)
Definition push (c : jsstring) (t : block_type) (st : pass) : pass :=
  (fst st ++ [{| id := js "block-" ++ Number_toString (snd st); content := c; type := t |}],
   S (snd st)).

Fixpoint processNode (n : node) (st : pass) : pass :=
  match n with
  | Element ns localName _ children =>
      let tagName := toLowerCase (tagName ns localName) in
      if includes (map js ["h1"; "h2"; "h3"; "h4"; "h5"; "h6"]%string) tagName then
        push (outerHTML n) heading st
      else if includes (map js ["ul"; "ol"]%string) tagName then
        push (outerHTML n) list_ st
      else if jsstring_eqb tagName (js "pre") then
        push (outerHTML n) code st
      else if jsstring_eqb tagName (js "blockquote") then
        push (outerHTML n) blockquote st
      else if jsstring_eqb tagName (js "p") || jsstring_eqb tagName (js "div") then
        push (or_string (outerHTML n) (or_string (textContent n) [])) text st
      else
        (* Array.from(element.childNodes).forEach(processNode) *)
        fold_left (fun st' c => processNode c st') children st
  | Text data =>
      if truthy (trim data) then
        push (js "<p>" ++ data ++ js "</p>") text st
      else st
  | Comment _ => st
  end.

Definition placeholder : EditorBlock :=
  {| id := js "block-0"; content := js "<p><br/></p>"; type := text |}.

(** The blocks pushed by the traversal, before the empty case is handled. *)
Definition emitted (nodes : list node) : list EditorBlock :=
  fst (fold_left (fun st c => processNode c st) nodes ([], 0)).

Section Segmenter.

(** The browser's HTML parser. *)
Variable parseFromString : jsstring -> document.

Definition parseContentIntoBlocks (html : jsstring) : list EditorBlock :=
  let doc := parseFromString html in
  let blocks := emitted (body_childNodes doc) in
  if List.length blocks =? 0 then blocks ++ [placeholder] else blocks.

(** The [blocks] memo of [EditorComponent]:
    [if (!useVirtualization || !content) return [];] *)
Definition blocks_memo (useVirtualization : bool) (content : jsstring)
  : list EditorBlock :=
  if negb useVirtualization || negb (truthy content) then []
  else parseContentIntoBlocks content.

End Segmenter.

(* ===================================================================== *)
(** * The replicated document *)
(* ===================================================================== *)

(** Modelled from the spec: the replicated document (the classes [Loro] and
    [LoroText] of the loro-crdt package, which the store imports) is not
    among the sources of the repository.  The model keeps what the spec says
    of the Document: a character buffer, the history of committed changes as
    merge metadata, a transaction that [commit] closes, one change
    notification per committed change or effective import (delivered to the
    subscribers by the call that sends it), a snapshot that serialises the
    whole state, and an import that rejects malformed bytes without touching
    the state and never drops a local change.  As in the package, an offset
    outside the buffer is rejected by the text container with an
    out-of-bound error, also for an empty insertion, and an empty insertion
    within the buffer and an empty deletion do nothing (the clamping the
    spec describes is attributed there to the operations of the store,
    which are embedded from the sources further down). *)
Module Loro.

Inductive op :=
| Insert (pos : nat) (s : jsstring)
| Delete (pos len : nat).

Definition change := list op.

Record doc := {
  text : jsstring;          (* the 'content' text container *)
  pending : list op;        (* operations of the open transaction *)
  oplog : list change;      (* committed changes, oldest first *)
  events : nat              (* change notifications sent to subscribers *)
}.

Inductive error := OutOfBound | DecodeError.

(** [new Loro()]. *)
Definition new : doc := {| text := []; pending := []; oplog := []; events := 0 |}.

(** [text.length] and [text.toString()]. *)
Definition length (d : doc) : Z := Z.of_nat (List.length (text d)).
Definition toString (d : doc) : jsstring := text d.

(** [text.insert(pos, s)]. *)
Definition insert (pos : Z) (s : jsstring) (d : doc) : error + doc :=
  if ((0 <=? pos) && (pos <=? length d))%Z then
    if negb (truthy s) then inr d
    else
      let p := Z.to_nat pos in
      inr {| text := firstn p (text d) ++ s ++ skipn p (text d);
             pending := pending d ++ [Insert p s];
             oplog := oplog d; events := events d |}
  else inl OutOfBound.

(** [text.delete(pos, len)]. *)
Definition delete (pos len : Z) (d : doc) : error + doc :=
  if (len =? 0)%Z then inr d
  else if ((0 <=? pos) && (0 <=? len) && (pos + len <=? length d))%Z then
    let p := Z.to_nat pos in
    let n := Z.to_nat len in
    inr {| text := firstn p (text d) ++ skipn (p + n) (text d);
           pending := pending d ++ [Delete p n];
           oplog := oplog d; events := events d |}
  else inl OutOfBound.

(** [doc.commit()]: an empty transaction commits nothing and notifies
    nobody. *)
Definition commit (d : doc) : doc :=
  match pending d with
  | [] => d
  | _ :: _ => {| text := text d; pending := [];
                 oplog := oplog d ++ [pending d]; events := S (events d) |}
  end.

(** ** Snapshots *)

Record snapshot := { snap_oplog : list change; snap_text : jsstring }.

Definition byte := Init.Byte.byte.
Import Init.Byte.

Fixpoint enc_pos (p : positive) : list byte :=
  match p with
  | xO q => x00 :: enc_pos q
  | xI q => x01 :: enc_pos q
  | xH => [x02]
  end.

Definition enc_nat (n : nat) : list byte :=
  match N.of_nat n with
  | N0 => [x03]
  | Npos p => enc_pos p
  end.

Definition enc_string (s : jsstring) : list byte :=
  enc_nat (List.length s) ++ map byte_of_ascii s.

Definition enc_list {A} (enc : A -> list byte) (l : list A) : list byte :=
  enc_nat (List.length l) ++ flat_map enc l.

Definition enc_op (o : op) : list byte :=
  match o with
  | Insert p s => x00 :: enc_nat p ++ enc_string s
  | Delete p n => x01 :: enc_nat p ++ enc_nat n
  end.

Definition magic : list byte := [x6c; x6f; x72; x6f].

Definition encode (s : snapshot) : list byte :=
  magic ++ enc_list (enc_list enc_op) (snap_oplog s) ++ enc_string (snap_text s).

Definition parser (A : Type) := list byte -> option (A * list byte).

Fixpoint dec_pos (l : list byte) : option (positive * list byte) :=
  match l with
  | x00 :: l' => match dec_pos l' with Some (p, r) => Some (xO p, r) | None => None end
  | x01 :: l' => match dec_pos l' with Some (p, r) => Some (xI p, r) | None => None end
  | x02 :: l' => Some (xH, l')
  | _ => None
  end.

Definition dec_nat : parser nat := fun l =>
  match l with
  | x03 :: l' => Some (0, l')
  | _ => match dec_pos l with
         | Some (p, r) => Some (Pos.to_nat p, r)
         | None => None
         end
  end.

Fixpoint dec_items {A} (dec : parser A) (n : nat) : parser (list A) := fun l =>
  match n with
  | 0 => Some ([], l)
  | S n' => match dec l with
            | Some (x, r) => match dec_items dec n' r with
                             | Some (xs, r') => Some (x :: xs, r')
                             | None => None
                             end
            | None => None
            end
  end.

Definition dec_list {A} (dec : parser A) : parser (list A) := fun l =>
  match dec_nat l with
  | Some (n, r) => dec_items dec n r
  | None => None
  end.

Definition dec_char : parser ascii := fun l =>
  match l with
  | b :: r => Some (ascii_of_byte b, r)
  | [] => None
  end.

Definition dec_string : parser jsstring := dec_list dec_char.

Definition dec_op : parser op := fun l =>
  match l with
  | x00 :: l' =>
      match dec_nat l' with
      | Some (p, r) => match dec_string r with
                       | Some (s, r') => Some (Insert p s, r')
                       | None => None
                       end
      | None => None
      end
  | x01 :: l' =>
      match dec_nat l' with
      | Some (p, r) => match dec_nat r with
                       | Some (n, r') => Some (Delete p n, r')
                       | None => None
                       end
      | None => None
      end
  | _ => None
  end.

Definition decode (l : list byte) : option snapshot :=
  match l with
  | x6c :: x6f :: x72 :: x6f :: l1 =>
      match dec_list (dec_list dec_op) l1 with
      | Some (log, l2) =>
          match dec_string l2 with
          | Some (t, []) => Some {| snap_oplog := log; snap_text := t |}
          | _ => None
          end
      | None => None
      end
  | _ => None
  end.

(** The state a snapshot carries: an open transaction is closed first. *)
Definition state_of (d : doc) : snapshot :=
  {| snap_oplog := oplog (commit d); snap_text := text d |}.

(** [doc.export({ mode: 'snapshot' })]. *)
Definition export (d : doc) : list byte := encode (state_of d).

Definition op_eq_dec (a b : op) : {a = b} + {a <> b}.
Proof.
  decide equality; try apply Nat.eq_dec; apply (list_eq_dec ascii_dec).
Defined.

Definition change_eq_dec : forall a b : change, {a = b} + {a <> b} :=
  list_eq_dec op_eq_dec.

(** [is_prefix a b]: history [b] starts with history [a]. *)
Fixpoint is_prefix (a b : list change) : bool :=
  match a, b with
  | [], _ => true
  | x :: a', y :: b' => (if change_eq_dec x y then true else false) && is_prefix a' b'
  | _ :: _, [] => false
  end.

(** The changes of [b] that come after its common prefix with [a]. *)
Fixpoint beyond (a b : list change) : list change :=
  match a, b with
  | x :: a', y :: b' => if change_eq_dec x y then beyond a' b' else b
  | _, _ => b
  end.

Section Merging.

(** How the merge algorithm interleaves two histories that diverged
    (local state, remote state, merged text).  No operation of the store
    depends on it, so it is left open. *)
Variable resolve : snapshot -> snapshot -> jsstring.

(** [doc.import(bytes)]. *)
Definition import (bytes : list byte) (d : doc) : error + doc :=
  match decode bytes with
  | None => inl DecodeError
  | Some remote =>
      let d0 := commit d in
      if is_prefix (snap_oplog remote) (oplog d0) then inr d0
      else if is_prefix (oplog d0) (snap_oplog remote) then
        inr {| text := snap_text remote; pending := [];
               oplog := snap_oplog remote; events := S (events d0) |}
      else
        inr {| text := resolve (state_of d0) remote; pending := [];
               oplog := oplog d0 ++ beyond (oplog d0) (snap_oplog remote);
               events := S (events d0) |}
  end.

End Merging.

End Loro.

(* ===================================================================== *)
(** * The document store (useLoroEditor) *)
(* ===================================================================== *)

Module Store.

(** The state the hook keeps between calls.  [loroDocRef] and [textRef]
    are assigned together by the mount effect and never reset, and
    [textRef.current] is the 'content' container of that document: one
    field stands for both.  [content] is the React state. *)
Record hook := {
  loroDocRef : option Loro.doc;
  content : jsstring;
  isInternalUpdateRef : bool
}.

(** How a call ends: with a value, or with the exception the library
    raised, which no function of the hook catches. *)
Inductive completion (A : Type) :=
| Normal (v : A) (h : hook)
| Abrupt (e : Loro.error) (h : hook).
Arguments Normal {A} v h.
Arguments Abrupt {A} e h.

Definition M (A : Type) := hook -> completion A.

Definition ret {A} (v : A) : M A := fun h => Normal v h.

Definition bind {A B} (m : M A) (k : A -> M B) : M B := fun h =>
  match m h with
  | Normal v h' => k v h'
  | Abrupt e h' => Abrupt e h'
  end.

Notation "x <- m ;; k" := (bind m (fun x => k))
  (at level 61, m at next level, right associativity).
Notation "m ;; k" := (bind m (fun _ => k))
  (at level 61, right associativity).

Definition when (b : bool) (m : M unit) : M unit := if b then m else ret tt.

(** [useState('')] and both refs still null. *)
Definition initial : hook :=
  {| loroDocRef := None; content := []; isInternalUpdateRef := false |}.

(** The mount effect: [new Loro()] and [getText('content')]. *)
Definition mount (h : hook) : hook :=
  {| loroDocRef := Some Loro.new; content := content h;
     isInternalUpdateRef := isInternalUpdateRef h |}.

Definition setContent (v : jsstring) : M unit := fun h =>
  Normal tt {| loroDocRef := loroDocRef h; content := v;
               isInternalUpdateRef := isInternalUpdateRef h |}.

Definition set_isInternalUpdate (b : bool) : M unit := fun h =>
  Normal tt {| loroDocRef := loroDocRef h; content := content h;
               isInternalUpdateRef := b |}.

(** The callback given to [loroDoc.subscribe]. *)
Definition subscriber : M unit := fun h =>
  match loroDocRef h with
  | Some d =>
      if negb (isInternalUpdateRef h) then setContent (Loro.toString d) h
      else Normal tt h
  | None => Normal tt h
  end.

Fixpoint deliver (n : nat) : M unit :=
  match n with
  | 0 => ret tt
  | S n' => subscriber ;; deliver n'
  end.

(** A library call on the document: it stores the new document and the
    subscriber runs once per notification the call sent; an error leaves
    the hook as it was and propagates. *)
Definition call (f : Loro.doc -> Loro.error + Loro.doc) : M unit := fun h =>
  match loroDocRef h with
  | None => Normal tt h
  | Some d =>
      match f d with
      | inl e => Abrupt e h
      | inr d' =>
          deliver (Loro.events d' - Loro.events d)
            {| loroDocRef := Some d'; content := content h;
               isInternalUpdateRef := isInternalUpdateRef h |}
      end
  end.

Definition text_length : M Z := fun h =>
  match loroDocRef h with
  | Some d => Normal (Loro.length d) h
  | None => Normal 0%Z h
  end.

Definition updateContent (newContent : jsstring) : M unit := fun h =>
  match loroDocRef h with
  | None => Normal tt h
  | Some _ =>
      (set_isInternalUpdate true ;;
       currentLength <- text_length ;;
       when (0 <? currentLength)%Z (call (Loro.delete 0 currentLength)) ;;
       when (truthy newContent) (call (Loro.insert 0 newContent)) ;;
       call (fun d => inr (Loro.commit d)) ;;
       setContent newContent ;;
       set_isInternalUpdate false) h
  end.

(** [position] is [None] when the argument is left out. *)
Definition insertText (text : jsstring) (position : option Z) : M unit := fun h =>
  match loroDocRef h with
  | None => Normal tt h
  | Some _ =>
      (len <- text_length ;;
       let insertPos := match position with Some p => p | None => len end in
       call (Loro.insert insertPos text) ;;
       call (fun d => inr (Loro.commit d))) h
  end.

Definition deleteText (start length : Z) : M unit := fun h =>
  match loroDocRef h with
  | None => Normal tt h
  | Some _ =>
      (call (Loro.delete start length) ;;
       call (fun d => inr (Loro.commit d))) h
  end.

(** [undefined] is [None]. *)
Definition getSnapshot (h : hook) : option (list Loro.byte) :=
  option_map Loro.export (loroDocRef h).

Section Requests.

Variable resolve : Loro.snapshot -> Loro.snapshot -> jsstring.

Definition loadSnapshot (snapshot : list Loro.byte) : M unit := fun h =>
  match loroDocRef h with
  | None => Normal tt h
  | Some _ => call (Loro.import resolve snapshot) h
  end.

(** The calls a client of the hook can make. *)
Inductive request :=
| UpdateContent (newContent : jsstring)
| InsertText (text : jsstring) (position : option Z)
| DeleteText (start length : Z)
| LoadSnapshot (snapshot : list Loro.byte).

Definition perform (r : request) : M unit :=
  match r with
  | UpdateContent c => updateContent c
  | InsertText t p => insertText t p
  | DeleteText s l => deleteText s l
  | LoadSnapshot b => loadSnapshot b
  end.

Definition after {A} (c : completion A) : hook :=
  match c with Normal _ h => h | Abrupt _ h => h end.

(** The states of a mounted hook: whatever a sequence of calls leaves,
    whether a call returned or raised. *)
Inductive reachable : hook -> Prop :=
| reach_mount : reachable (mount initial)
| reach_step h r : reachable h -> reachable (after (perform r h)).

End Requests.

(** The number of change notifications the document has sent. *)
Definition notifications (h : hook) : nat :=
  match loroDocRef h with Some d => Loro.events d | None => 0 end.

Definition doc_text (h : hook) : jsstring :=
  match loroDocRef h with Some d => Loro.toString d | None => [] end.

(** The committed changes of the document. *)
Definition history (h : hook) : list Loro.change :=
  match loroDocRef h with Some d => Loro.oplog d | None => [] end.

End Store.

(* ===================================================================== *)
(** * The view: caret and content synchronisation (EditorComponent) *)
(* ===================================================================== *)

Module View.

(** A boundary point inside the editable region: the container, given by
    the child indexes that lead to it from the region, and the offset in
    it (a code-unit offset in a text node, a child index in an element). *)
Definition boundary := (list nat * nat)%type.

(** [editorRef.current] is [None] while the ref is null (the editable
    region is only mounted in standard mode); otherwise it holds the child
    nodes of the region.  [selection] is the end of range 0 of
    [window.getSelection()], [None] when [rangeCount] is 0; the model
    covers selections that end inside the region. *)
Record view := {
  editorRef : option (list node);
  selection : option boundary;
  isUpdatingRef : bool;
  useVirtualization : bool
}.

(** The editable region itself, as a node. *)
Definition region (children : list node) : node := Element HTML (js "div") [] children.

Definition text_length (l : list node) : nat := List.length (flat_map text_of l).

(** Length of the text between the start of [n] and the boundary point
    [(path, offset)] in it; [None] when the point does not exist (the DOM
    call raises). *)
Fixpoint text_before (n : node) (path : list nat) (offset : nat) : option nat :=
  match path with
  | [] =>
      match n with
      | Element _ _ _ children =>
          if offset <=? List.length children
          then Some (text_length (firstn offset children)) else None
      | Text data => if offset <=? List.length data then Some offset else None
      | Comment data => if offset <=? List.length data then Some 0 else None
      end
  | i :: path' =>
      match n with
      | Element _ _ _ children =>
          match nth_error children i with
          | Some c =>
              match text_before c path' offset with
              | Some k => Some (text_length (firstn i children) + k)
              | None => None
              end
          | None => None
          end
      | _ => None
      end
  end.

(** [preCaretRange.toString().length], or [null]. *)
Definition saveCursorPosition (v : view) : option nat :=
  match selection v, editorRef v with
  | Some (path, offset), Some children => text_before (region children) path offset
  | _, _ => None
  end.

(** [createRange(node, chars)]: the collapsed range found, if any, and the
    value [chars.count] is left with. *)
Fixpoint createRange (n : node) (count : nat) : option boundary * nat :=
  if count =? 0 then (Some ([], 0), count)
  else
    match n with
    | Text data =>
        if count <=? List.length data then (Some ([], count), count)
        else (None, count - List.length data)
    | Element _ _ _ children =>
        (fix loop (cs : list node) (i : nat) (count : nat) : option boundary * nat :=
           match cs with
           | [] => (None, count)
           | c :: cs' =>
               match createRange c count with
               | (Some (p, o), k) => (Some (i :: p, o), k)
               | (None, k) => loop cs' (S i) k
               end
           end) children 0 count
    | Comment _ => (None, count)
    end.

Definition set_selection (s : option boundary) (v : view) : view :=
  {| editorRef := editorRef v; selection := s;
     isUpdatingRef := isUpdatingRef v; useVirtualization := useVirtualization v |}.

Definition restoreCursorPosition (position : nat) (v : view) : view :=
  match editorRef v with
  | None => v
  | Some children =>
      match fst (createRange (region children) position) with
      | Some r => set_selection (Some r) v
      | None => v
      end
  end.

Section Sync.

(** The parser behind the [innerHTML] setter. *)
Variable parseFragment : jsstring -> list node.

(** [editorRef.current.innerHTML = content]: the children are replaced
    and a range that was inside them collapses to the start of the
    region. *)
Definition set_innerHTML (content : jsstring) (v : view) : view :=
  {| editorRef := Some (parseFragment content);
     selection := match selection v with Some _ => Some ([], 0) | None => None end;
     isUpdatingRef := isUpdatingRef v; useVirtualization := useVirtualization v |}.

(** The effect that runs when [content] changes. *)
Definition sync_content (content : jsstring) (v : view) : view :=
  match editorRef v with
  | None => v
  | Some children =>
      if isUpdatingRef v || useVirtualization v then v
      else
        let cursorPos := saveCursorPosition v in
        if negb (jsstring_eqb (innerHTML children) content) then
          let v' := set_innerHTML content v in
          match cursorPos with
          | Some k => restoreCursorPosition k v'
          | None => v'
          end
        else v
  end.

End Sync.

End View.

(* ===================================================================== *)
(** * The reconciler's flags and the task queues (handleInput) *)
(* ===================================================================== *)

Module Reconciler.

(** The callbacks the editor hands to the host. *)
Inductive task := ClearUpdating.   (* () => { isUpdatingRef.current = false } *)

(** The editor with its store and the two queues of the host: timer tasks
    ([setTimeout]) and microtasks. *)
Record editor := {
  view : View.view;
  store : Store.hook;
  timers : list task;
  microtasks : list task
}.

Definition set_updating (b : bool) (e : editor) : editor :=
  {| view := {| View.editorRef := View.editorRef (view e);
                View.selection := View.selection (view e);
                View.isUpdatingRef := b;
                View.useVirtualization := View.useVirtualization (view e) |};
     store := store e; timers := timers e; microtasks := microtasks e |}.

Definition set_store (h : Store.hook) (e : editor) : editor :=
  {| view := view e; store := h; timers := timers e; microtasks := microtasks e |}.

(** [setTimeout(callback, 0)]. *)
Definition setTimeout (t : task) (e : editor) : editor :=
  {| view := view e; store := store e; timers := timers e ++ [t];
     microtasks := microtasks e |}.

Definition run (t : task) (e : editor) : editor :=
  match t with ClearUpdating => set_updating false e end.

Section Handlers.

(** The [onContentChange] prop, when the editor is controlled: for each
    argument, whether the callback returns ([true]) or raises. *)
Variable onContentChange : option (jsstring -> bool).

(** [handleInput].  The mention and slash-command lookups between the
    store write and the timer only set popup state and are left out.  An
    exception from [updateContent] ends the handler where it is. *)
Definition handleInput (e : editor) : editor :=
  match View.editorRef (view e) with
  | None => e
  | Some children =>
      let e1 := set_updating true e in
      let html := or_string (innerHTML children) [] in
      match onContentChange with
      | Some callback =>
          if callback html then setTimeout ClearUpdating e1 else e1
      | None =>
          match Store.updateContent html (store e1) with
          | Store.Normal _ h => setTimeout ClearUpdating (set_store h e1)
          | Store.Abrupt _ h => set_store h e1
          end
      end
  end.

(** The microtask checkpoint at the end of a task. *)
Definition checkpoint (e : editor) : editor :=
  fold_left (fun e' t => run t e')
    (microtasks e)
    {| view := view e; store := store e; timers := timers e; microtasks := [] |}.

(** The oldest timer task runs. *)
Definition run_timer (e : editor) : editor :=
  match timers e with
  | [] => e
  | t :: ts =>
      run t {| view := view e; store := store e; timers := ts;
               microtasks := microtasks e |}
  end.

(** The parser behind the [innerHTML] setter. *)
Variable parseFragment : jsstring -> list node.

Definition set_view (v : View.view) (e : editor) : editor :=
  {| view := v; store := store e; timers := timers e; microtasks := microtasks e |}.

(** The user's keystroke has changed the children of the editable
    region (if it is mounted) when the input event arrives. *)
Definition typed (children : list node) (e : editor) : editor :=
  match View.editorRef (view e) with
  | None => e
  | Some _ =>
      set_view {| View.editorRef := Some children;
                  View.selection := View.selection (view e);
                  View.isUpdatingRef := View.isUpdatingRef (view e);
                  View.useVirtualization := View.useVirtualization (view e) |} e
  end.

(** One turn of the event loop: an input event, a render whose content
    effect runs, or a timer, each followed by the microtask
    checkpoint. *)
Inductive turn : editor -> editor -> Prop :=
| turn_input children e :
    turn e (checkpoint (handleInput (typed children e)))
| turn_render content e :
    turn e (checkpoint (set_view (View.sync_content parseFragment content (view e)) e))
| turn_timer e :
    timers e <> [] -> turn e (checkpoint (run_timer e)).

Inductive reachable (e0 : editor) : editor -> Prop :=
| reach_start : reachable e0 e0
| reach_turn e e' : reachable e0 e -> turn e e' -> reachable e0 e'.

(** The timer tasks that are pending run one after the other. *)
Fixpoint drain (n : nat) (e : editor) : editor :=
  match n with
  | 0 => e
  | S n' => drain n' (checkpoint (run_timer e))
  end.

End Handlers.

(** The editor right after mount, in standard mode, with nothing typed. *)
Definition mounted : editor :=
  {| view := {| View.editorRef := Some []; View.selection := None;
                View.isUpdatingRef := false; View.useVirtualization := false |};
     store := Store.mount Store.initial; timers := []; microtasks := [] |}.

End Reconciler.

(* ===================================================================== *)
(** * The viewport window *)
(* ===================================================================== *)

(** Modelled from the spec: the windowing engine ([useVirtualizer] of
    @tanstack/react-virtual) is not among the sources of the repository.
    The model keeps what section 4.3 of the spec says of it: a size per
    index, measured where a measurement exists and the estimate otherwise;
    the cumulative offset of an index is the sum of the sizes before it; a
    visible range, widened by the overscan at both ends and clamped to
    [0, N-1]; no row at all when the engine is disabled.  The spec words
    the visible range by the offsets of the rows alone (first offset at or
    after the scroll offset, last offset at or before the bottom edge);
    the package the editor calls computes it from the rows that the
    viewport meets, and the model follows the package ([calculateRange],
    [findNearestBinarySearch] and [defaultRangeExtractor] of its core): the
    first visible index is the last one whose offset is at most the scroll
    offset, the last visible index the first one from there whose end
    reaches the scroll offset plus the viewport height, so that a row which
    only starts at the bottom edge is not visible. *)
Module Window.

Record options := {
  count : nat;
  estimateSize : nat -> N;
  overscan : nat;
  enabled : bool
}.

Record virtualItem := { index : nat; start : N; size : N; end_ : N; key : nat }.

(** The search for the row that holds [value]; [fuel] bounds the number of
    halvings. *)
Fixpoint findNearestBinarySearch (fuel : nat) (low high : Z)
    (getCurrentValue : Z -> N) (value : N) : Z :=
  match fuel with
  | S fuel' =>
      if (low <=? high)%Z then
        let middle := ((low + high) / 2)%Z in
        let currentValue := getCurrentValue middle in
        if (currentValue <? value)%N then
          findNearestBinarySearch fuel' (middle + 1) high getCurrentValue value
        else if (value <? currentValue)%N then
          findNearestBinarySearch fuel' low (middle - 1) getCurrentValue value
        else middle
      else if (0 <? low)%Z then (low - 1)%Z else 0%Z
  | 0 => if (0 <? low)%Z then (low - 1)%Z else 0%Z
  end.

(** [while (endIndex < lastIndex && measurements[endIndex].end <
    scrollOffset + outerSize) endIndex++]. *)
Fixpoint last_in_view (fuel : nat) (measurements : list virtualItem)
    (endIndex lastIndex : nat) (bottom : N) : nat :=
  match fuel with
  | S fuel' =>
      match nth_error measurements endIndex with
      | Some it =>
          if (endIndex <? lastIndex) && (end_ it <? bottom)%N
          then last_in_view fuel' measurements (S endIndex) lastIndex bottom
          else endIndex
      | None => endIndex
      end
  | 0 => endIndex
  end.

Definition calculateRange (measurements : list virtualItem) (outerSize scrollOffset : N)
  : nat * nat :=
  let lastIndex := List.length measurements - 1 in
  let getOffset (i : Z) :=
    match nth_error measurements (Z.to_nat i) with Some it => start it | None => 0%N end in
  let startIndex :=
    Z.to_nat (findNearestBinarySearch (S (List.length measurements)) 0 (Z.of_nat lastIndex)
                getOffset scrollOffset) in
  (startIndex,
   last_in_view (List.length measurements) measurements startIndex lastIndex
     (scrollOffset + outerSize)%N).

(** The indexes from [max (startIndex - overscan) 0] to
    [min (endIndex + overscan) (count - 1)]. *)
Definition defaultRangeExtractor (startIndex endIndex overscan count : nat) : list nat :=
  let first := startIndex - overscan in
  let last := Nat.min (endIndex + overscan) (count - 1) in
  seq first (S last - first).

Section Engine.

Variable o : options.
(** The measured-size cache, filled by [measureElement]. *)
Variable measured : nat -> option N.

Definition itemSize (i : nat) : N :=
  match measured i with Some s => s | None => estimateSize o i end.

(** The items of indexes [i, i + n), the first one starting at [from]. *)
Fixpoint layout (n i : nat) (from : N) : list virtualItem :=
  match n with
  | 0 => []
  | S n' =>
      {| index := i; start := from; size := itemSize i;
         end_ := (from + itemSize i)%N; key := i |}
        :: layout n' (S i) (from + itemSize i)%N
  end.

(** No measurement is kept while the engine is disabled. *)
Definition getMeasurements : list virtualItem :=
  if enabled o then layout (count o) 0 0%N else [].

Definition getTotalSize : N :=
  match rev getMeasurements with
  | it :: _ => end_ it
  | [] => 0%N
  end.

(** The visible range: none without rows or without a viewport. *)
Definition range (scrollOffset viewportHeight : N) : option (nat * nat) :=
  if (0 <? List.length getMeasurements) && (0 <? viewportHeight)%N
  then Some (calculateRange getMeasurements viewportHeight scrollOffset)
  else None.

Definition getVirtualIndexes (scrollOffset viewportHeight : N) : list nat :=
  match range scrollOffset viewportHeight with
  | Some (startIndex, endIndex) =>
      defaultRangeExtractor startIndex endIndex (overscan o) (count o)
  | None => []
  end.

Definition getVirtualItems (scrollOffset viewportHeight : N) : list virtualItem :=
  flat_map (fun i => match nth_error getMeasurements i with
                     | Some it => [it]
                     | None => []
                     end)
    (getVirtualIndexes scrollOffset viewportHeight).

End Engine.

End Window.

(* ===================================================================== *)
(** * EditorComponent: the block list and the virtualizer it configures *)
(* ===================================================================== *)

Section EditorComponent.

Variable parseFromString : jsstring -> document.

(** [useVirtualizer({ count: blocks.length, estimateSize: () => 50,
    overscan: 5, enabled: useVirtualization })]. *)
Definition rowVirtualizer (useVirtualization : bool) (content : jsstring)
  : Window.options :=
  {| Window.count := List.length (blocks_memo parseFromString useVirtualization content);
     Window.estimateSize := fun _ => 50%N;
     Window.overscan := 5;
     Window.enabled := useVirtualization |}.

(** What the two render branches put on screen: the blocks of the window
    in virtualized mode, the single editable region (no block) in standard
    mode. *)
Definition rendered_blocks (useVirtualization : bool) (content : jsstring)
    (measured : nat -> option N) (scrollOffset viewportHeight : N)
  : list EditorBlock :=
  if useVirtualization then
    let blocks := blocks_memo parseFromString useVirtualization content in
    flat_map (fun it => match nth_error blocks (Window.index it) with
                        | Some b => [b] | None => [] end)
      (Window.getVirtualItems (rowVirtualizer useVirtualization content)
         measured scrollOffset viewportHeight)
  else [].

End EditorComponent.

(* ===================================================================== *)
(** * Auxiliary definitions: the notions the statements below are made of,
      and the concrete states they are evaluated on *)
(* ===================================================================== *)

(** Induction on a node with the hypothesis on all its children. *)
Section NodeInduction.
Variable P : node -> Prop.
Hypothesis P_element :
  forall ns name attrs children, Forall P children -> P (Element ns name attrs children).
Hypothesis P_text : forall data, P (Text data).
Hypothesis P_comment : forall data, P (Comment data).

Fixpoint node_rect' (n : node) : P n :=
  match n with
  | Element ns name attrs children =>
      P_element ns name attrs children
        ((fix all (l : list node) : Forall P l :=
            match l with
            | [] => Forall_nil P
            | c :: l' => Forall_cons c (node_rect' c) (all l')
            end) children)
  | Text data => P_text data
  | Comment data => P_comment data
  end.
End NodeInduction.

(** The tags that make a block of their own. *)
Definition block_tags : list jsstring :=
  map js ["h1"; "h2"; "h3"; "h4"; "h5"; "h6"; "ul"; "ol"; "pre"; "blockquote";
          "p"; "div"]%string.

(** The content fragments a node contributes, in document order. *)
Fixpoint fragments (n : node) : list jsstring :=
  match n with
  | Element ns localName _ children =>
      if includes block_tags (toLowerCase (tagName ns localName)) then [outerHTML n]
      else flat_map fragments children
  | Text data => if truthy (trim data) then [js "<p>" ++ data ++ js "</p>"] else []
  | Comment _ => []
  end.

(** A pass keeps the counter equal to the number of blocks and gives the
    block at index [i] the identifier block-i. *)
Definition well_numbered (st : pass) : Prop :=
  snd st = List.length (fst st) /\
  map id (fst st) = map (fun i => js "block-" ++ Number_toString i) (seq 0 (List.length (fst st))).

(** An element that becomes a block as a whole. *)
Definition block_element (n : node) : bool :=
  match n with
  | Element ns localName _ _ => includes block_tags (toLowerCase (tagName ns localName))
  | _ => false
  end.

Definition is_ascii_ws (c : ascii) : bool := is_ws c && negb (charCode c =? 160).

(** A text node made of TAB, LF, VT, FF, CR and SP only. *)
Definition blank_text (n : node) : bool :=
  match n with
  | Text data => forallb is_ascii_ws data
  | _ => false
  end.

Definition two_blocks : list node :=
  [Element HTML (js "h1") [] [Text (js "a & b")];
   Text (js " ");
   Element HTML (js "p") [(js "class", js "x")] [Text (js "hi"); Element HTML (js "br") [] []]].

(** What [updateContent] leaves in a mounted store with no open
    transaction. *)
Definition updated (x : jsstring) (d : Loro.doc) : Loro.doc :=
  match Loro.text d, x with
  | [], [] => d
  | _, _ =>
      {| Loro.text := x; Loro.pending := [];
         Loro.oplog := Loro.oplog d ++
           [(if truthy (Loro.text d) then [Loro.Delete 0 (List.length (Loro.text d))] else [])
            ++ (if truthy x then [Loro.Insert 0 x] else [])];
         Loro.events := S (Loro.events d) |}
  end.

(** A mounted store at rest: no open transaction, the React state equal to
    the replicated text, the internal-update flag down, and some committed
    change behind any non-empty text. *)
Definition settled (h : Store.hook) : Prop :=
  exists d, Store.loroDocRef h = Some d
            /\ Loro.pending d = []
            /\ Store.content h = Loro.text d
            /\ Store.isInternalUpdateRef h = false
            /\ (Loro.oplog d = [] -> Loro.text d = []).

Definition at_rest (d : Loro.doc) : Store.hook :=
  {| Store.loroDocRef := Some d; Store.content := Loro.text d;
     Store.isInternalUpdateRef := false |}.

(** A store that holds "ab" after one write. *)
Definition store_ab : Store.hook :=
  Store.after (Store.updateContent (js "ab") (Store.mount Store.initial)).

Definition no_resolve : Loro.snapshot -> Loro.snapshot -> jsstring := fun _ _ => [].

Definition garbage : list Loro.byte := [Byte.x01; Byte.xff].

(** The loop of [createRange] over the children of an element, from child
    [i] on. *)
Definition scan : list node -> nat -> nat -> option View.boundary * nat :=
  fix loop (cs : list node) (i : nat) (count : nat) : option View.boundary * nat :=
    match cs with
    | [] => (None, count)
    | c :: cs' =>
        match View.createRange c count with
        | (Some (p, o), k) => (Some (i :: p, o), k)
        | (None, k) => loop cs' (S i) k
        end
    end.

(** What [createRange] finds for a positive count. *)
Definition finds (n : node) : Prop :=
  forall k, 0 < k ->
    (k <= List.length (text_of n) ->
     exists p o k', View.createRange n k = (Some (p, o), k')
                    /\ View.text_before n p o = Some k)
    /\ (List.length (text_of n) < k ->
        View.createRange n k = (None, k - List.length (text_of n))).

(** A paragraph "abcdef" with the caret after "abc", and the update that
    puts "XY" after the first letter. *)
Definition view_abcdef : View.view :=
  {| View.editorRef := Some [Element HTML (js "p") [] [Text (js "abcdef")]];
     View.selection := Some ([0; 0], 3);
     View.isUpdatingRef := false;
     View.useVirtualization := false |}.

Definition parse_aXYbcdef : jsstring -> list node :=
  fun _ => [Element HTML (js "p") [] [Text (js "aXYbcdef")]].

(** No microtask is ever queued, the internal flag is down between calls,
    and a raised [isUpdatingRef] has its clearing timer in the queue. *)
Definition guarded (e : Reconciler.editor) : Prop :=
  Reconciler.microtasks e = []
  /\ Store.isInternalUpdateRef (Reconciler.store e) = false
  /\ (View.isUpdatingRef (Reconciler.view e) = true ->
      In Reconciler.ClearUpdating (Reconciler.timers e)).

(** The editor after the user typed "a" into the empty region. *)
Definition after_keystroke : Reconciler.editor :=
  Reconciler.checkpoint
    (Reconciler.handleInput None (Reconciler.typed [Text (js "a")] Reconciler.mounted)).

Definition ten_thousand : Window.options :=
  {| Window.count := 10000; Window.estimateSize := fun _ => 50%N;
     Window.overscan := 5; Window.enabled := true |}.

(** Ten thousand paragraphs. *)
Definition paragraphs : list node := repeat (Element HTML (js "p") [] [Text (js "x")]) 10000.

Definition parse_paragraphs : jsstring -> document :=
  fun _ => {| body_childNodes := paragraphs |}.

Definition ceil_div (a b : N) : N := ((a + b - 1) / b)%N.

(* ===================================================================== *)
(** * More of the sources: string operations *)
(* ===================================================================== *)

(** The class [\w] of a regular expression: letters, digits, underscore. *)
Definition is_word (c : ascii) : bool :=
  let n := charCode c in
  ((48 <=? n) && (n <=? 57)) || ((65 <=? n) && (n <=? 90))
  || ((97 <=? n) && (n <=? 122)) || (n =? 95).

Fixpoint starts_with (p s : jsstring) : bool :=
  match p, s with
  | [], _ => true
  | a :: p', b :: s' => (if ascii_dec a b then true else false) && starts_with p' s'
  | _ :: _, [] => false
  end.

(** [String.prototype.includes]. *)
Fixpoint includes_str (s sub : jsstring) : bool :=
  starts_with sub s
  || match s with
     | [] => false
     | _ :: s' => includes_str s' sub
     end.

(** An index argument of [slice]: a negative one counts from the end, and
    the result stays within the string. *)
Definition slice_index (len i : Z) : Z :=
  if (i <? 0)%Z then Z.max (len + i) 0 else Z.min i len.

(** [String.prototype.slice(start, end)]; [end_] is [None] when left out. *)
Definition slice (s : jsstring) (start : Z) (end_ : option Z) : jsstring :=
  let len := Z.of_nat (List.length s) in
  let from := slice_index len start in
  let to := match end_ with Some e => slice_index len e | None => len end in
  firstn (Z.to_nat (to - from)) (skipn (Z.to_nat from) s).

Fixpoint lastIndexOf_from (c : ascii) (s : jsstring) (i found : Z) : Z :=
  match s with
  | [] => found
  | x :: s' => lastIndexOf_from c s' (i + 1) (if ascii_dec x c then i else found)
  end.

(** [String.prototype.lastIndexOf] of a one-character string: -1 when the
    character does not occur. *)
Definition lastIndexOf (s : jsstring) (c : ascii) : Z := lastIndexOf_from c s 0 (-1).

(** [s.split(/\s+/)], as a scan: a run of white space closes the piece that
    was open and opens an empty one. *)
Fixpoint split_ws_from (s piece : jsstring) (in_space : bool) : list jsstring :=
  match s with
  | [] => [rev piece]
  | c :: s' =>
      if is_ws c then
        if in_space then split_ws_from s' piece true
        else rev piece :: split_ws_from s' [] true
      else split_ws_from s' (c :: piece) false
  end.

Definition split_ws (s : jsstring) : list jsstring := split_ws_from s [] false.

(** [s.split(c)] for a one-character separator. *)
Fixpoint split_char_from (c : ascii) (s piece : jsstring) : list jsstring :=
  match s with
  | [] => [rev piece]
  | x :: s' =>
      if ascii_dec x c then rev piece :: split_char_from c s' []
      else split_char_from c s' (x :: piece)
  end.

Definition split_char (c : ascii) (s : jsstring) : list jsstring := split_char_from c s [].

Definition LF : ascii := ascii_of_nat 10.

(** [s.replace] of every match of the tag pattern (a [<], any number of
    characters other than [>], a [>]) by the empty string, as a scan: [open] holds, in reverse, what
    was read since a [<] that has not met its [>] yet; it is dropped when
    the [>] comes and kept when the string ends first. *)
Fixpoint strip_tags_from (s : jsstring) (open : option jsstring) : jsstring :=
  match s with
  | [] => match open with Some p => rev p | None => [] end
  | c :: s' =>
      match open with
      | None =>
          if ascii_dec c "<"%char then strip_tags_from s' (Some [c])
          else c :: strip_tags_from s' None
      | Some p =>
          if ascii_dec c ">"%char then strip_tags_from s' None
          else strip_tags_from s' (Some (c :: p))
      end
  end.

Definition strip_tags (s : jsstring) : jsstring := strip_tags_from s None.

(* ===================================================================== *)
(** * More of the sources: statistics of the editors *)
(* ===================================================================== *)

(** The [stats] memo of [EditorComponent]. [textContent] is
    [editorRef.current?.textContent]. *)
Record stats := { chars : nat; words : nat; lines : nat; blocks : nat }.

Definition count_words (text : jsstring) : nat :=
  List.length (filter truthy (split_ws (trim text))).

Definition editor_stats (textContent : option jsstring) (blocks_length : nat) : stats :=
  let text := or_string (match textContent with Some t => t | None => [] end) [] in
  {| chars := List.length text;
     words := count_words text;
     lines := List.length (split_char LF text);
     blocks := blocks_length |}.

(** The footer of [EditorBlockComponent]: the two counts it shows for the
    HTML [content]. *)
Definition footer_characters (content : jsstring) : nat :=
  List.length (strip_tags content).

Definition footer_words (content : jsstring) : nat :=
  count_words (strip_tags content).

(* ===================================================================== *)
(** * More of the sources: mentions and slash commands *)
(* ===================================================================== *)

Module Popup.

Record MentionUser := { id : jsstring; name : jsstring; avatar : option jsstring }.

(** A slash command, without its icon. *)
Record SlashCommand := {
  command_id : jsstring;
  label : jsstring;
  keywords : list jsstring;
  action : jsstring
}.

(** The filter of [MentionDropdown] and of [handleKeyDown]. *)
Definition filteredUsers (users : list MentionUser) (query : jsstring) : list MentionUser :=
  filter (fun user => includes_str (toLowerCase (name user)) (toLowerCase query)) users.

(** The filter of [SlashCommandMenu] and of [handleKeyDown]. *)
Definition filteredCommands (commands : list SlashCommand) (query : jsstring)
  : list SlashCommand :=
  filter (fun cmd =>
            includes_str (toLowerCase (label cmd)) (toLowerCase query)
            || existsb (fun k => includes_str (toLowerCase k) (toLowerCase query))
                 (keywords cmd))
    commands.

(** [text.match] of the mention pattern (an at sign, any number of [\w],
    the end of the text), group 1: the leftmost [@] that only word
    characters follow up to the end. *)
Fixpoint match_mention (text : jsstring) : option jsstring :=
  match text with
  | [] => None
  | c :: rest =>
      if (if ascii_dec c "@"%char then true else false) && forallb is_word rest
      then Some rest
      else match_mention rest
  end.

(** A slash, any number of [\w] and the end, at the start of [text]. *)
Definition slash_here (text : jsstring) : option jsstring :=
  match text with
  | c :: rest =>
      if (if ascii_dec c "/"%char then true else false) && forallb is_word rest
      then Some rest else None
  | [] => None
  end.

(** A white-space character, a slash, any number of [\w] and the end, at
    the leftmost place of [text] where that matches. *)
Fixpoint slash_after_space (text : jsstring) : option jsstring :=
  match text with
  | [] => None
  | c :: rest =>
      match (if is_ws c then slash_here rest else None) with
      | Some q => Some q
      | None => slash_after_space rest
      end
  end.

(** [text.match] of the slash pattern (the start of the text or a
    white-space character, a slash, any number of [\w], the end of the
    text), group 1. *)
Definition match_slash (text : jsstring) : option jsstring :=
  match slash_here text with
  | Some q => Some q
  | None => slash_after_space text
  end.

(** The popup state of [EditorComponent]; an index is a JavaScript number,
    [None] standing for NaN. *)
Record popups := {
  showMentions : bool;
  mentionQuery : jsstring;
  selectedMentionIndex : option Z;
  showSlashMenu : bool;
  slashQuery : jsstring;
  selectedCommandIndex : option Z
}.

(** [useState] initial values. *)
Definition closed : popups :=
  {| showMentions := false; mentionQuery := []; selectedMentionIndex := Some 0%Z;
     showSlashMenu := false; slashQuery := []; selectedCommandIndex := Some 0%Z |}.

(** The trigger checks of [handleInput], given the text before the caret
    (the positions of the popups are left out). *)
Definition detect (textBeforeCursor : jsstring) (p : popups) : popups :=
  let p1 :=
    match match_mention textBeforeCursor with
    | Some q =>
        {| showMentions := true; mentionQuery := q; selectedMentionIndex := Some 0%Z;
           showSlashMenu := showSlashMenu p; slashQuery := slashQuery p;
           selectedCommandIndex := selectedCommandIndex p |}
    | None =>
        {| showMentions := false; mentionQuery := mentionQuery p;
           selectedMentionIndex := selectedMentionIndex p;
           showSlashMenu := showSlashMenu p; slashQuery := slashQuery p;
           selectedCommandIndex := selectedCommandIndex p |}
    end in
  match match_slash textBeforeCursor with
  | Some q =>
      {| showMentions := showMentions p1; mentionQuery := mentionQuery p1;
         selectedMentionIndex := selectedMentionIndex p1;
         showSlashMenu := true; slashQuery := q; selectedCommandIndex := Some 0%Z |}
  | None =>
      {| showMentions := showMentions p1; mentionQuery := mentionQuery p1;
         selectedMentionIndex := selectedMentionIndex p1;
         showSlashMenu := false; slashQuery := slashQuery p1;
         selectedCommandIndex := selectedCommandIndex p1 |}
  end.

(** [a % n] on numbers that are integers or NaN. *)
Definition rem (a : option Z) (n : Z) : option Z :=
  match a with
  | Some x => if (n =? 0)%Z then None else Some (Z.rem x n)
  | None => None
  end.

(** [(prev + 1) % length] and [(prev - 1 + length) % length]. *)
Definition arrowDown (length : nat) (prev : option Z) : option Z :=
  rem (option_map (fun x => x + 1)%Z prev) (Z.of_nat length).

Definition arrowUp (length : nat) (prev : option Z) : option Z :=
  rem (option_map (fun x => x - 1 + Z.of_nat length)%Z prev) (Z.of_nat length).

(** [array[index]]: [None] is [undefined]. *)
Definition at_index {A : Type} (l : list A) (index : option Z) : option A :=
  match index with
  | Some z => if (z <? 0)%Z then None else nth_error l (Z.to_nat z)
  | None => None
  end.

(** The lines [insertMention] and [executeSlashCommand] share, for a caret
    at [cursorPos] in a text node of data [textContent]: the text they
    assign to the node (the data without what lies between the last
    trigger character before the caret and the caret) and the index they
    pass to [setStart]. *)
Definition remove_trigger (trigger : ascii) (textContent : jsstring) (cursorPos : nat)
  : jsstring * Z :=
  let beforeCursor := slice textContent 0 (Some (Z.of_nat cursorPos)) in
  let index := lastIndexOf beforeCursor trigger in
  let afterCursor := slice textContent (Z.of_nat cursorPos) None in
  (slice textContent 0 (Some index) ++ afterCursor, index).

(** [executeSlashCommand] on a caret in a text node: the data the node is
    left with and the offset of the caret in it; [None] when [setStart]
    raises (a negative index, or one past the end of the data).  The menu
    is closed and the command runs in a later task. *)
Definition executeSlashCommand (textContent : jsstring) (cursorPos : nat)
  : option (jsstring * nat) :=
  let (newText, slashIndex) := remove_trigger "/" textContent cursorPos in
  if (slashIndex <? 0)%Z || (Z.of_nat (List.length newText) <? slashIndex)%Z then None
  else Some (newText, Z.to_nat slashIndex).

(** The span [insertMention] creates; [style] is the text the browser gives
    the style attribute for the five declarations the code sets. *)
Definition mentionSpan (style : jsstring) (user : MentionUser) : node :=
  Element HTML (js "span")
    [(js "class", js "mention"); (js "data-user-id", id user);
     (js "contenteditable", js "false"); (js "style", style)]
    [Text ("@"%char :: name user)].

(** [insertMention] on a caret in a text node: the nodes that stand where
    the text node stood, and how many of them precede the caret.  The data
    is assigned, the range is set at the index of the trigger and the span
    inserted there, which splits the text node in two; a text node holding
    one space is put after the span and the caret after the space.  [None]
    when [setStart] raises. *)
Definition insertMention (style : jsstring) (user : MentionUser)
    (textContent : jsstring) (cursorPos : nat) : option (list node * nat) :=
  let (newText, atIndex) := remove_trigger "@" textContent cursorPos in
  if (atIndex <? 0)%Z || (Z.of_nat (List.length newText) <? atIndex)%Z then None
  else
    Some ([Text (firstn (Z.to_nat atIndex) newText);
           mentionSpan style user;
           Text (js " ");
           Text (skipn (Z.to_nat atIndex) newText)],
          3).

End Popup.

(* ===================================================================== *)
(** * More of the sources: the performance tests *)
(* ===================================================================== *)

Definition paragraphTypes : list jsstring :=
  map js ["Lorem ipsum dolor sit amet, consectetur adipiscing elit.";
          "Sed do eiusmod tempor incididunt ut labore et dolore magna aliqua.";
          "Ut enim ad minim veniam, quis nostrud exercitation ullamco laboris.";
          "Duis aute irure dolor in reprehenderit in voluptate velit esse.";
          "Excepteur sint occaecat cupidatat non proident, sunt in culpa."]%string.

(** The markup the loop of [generateBlocks] makes for the index [i]; the
    performance tests spell the same ten cases. *)
Definition block_markup (i : nat) : jsstring :=
  let type := i mod 10 in
  let paragraph := nth (i mod List.length paragraphTypes) paragraphTypes [] in
  if type =? 0 then js "<h1>Heading 1 - Block " ++ Number_toString (i + 1) ++ js "</h1>"
  else if type =? 1 then js "<h2>Heading 2 - Block " ++ Number_toString (i + 1) ++ js "</h2>"
  else if type =? 2 then js "<h3>Heading 3 - Block " ++ Number_toString (i + 1) ++ js "</h3>"
  else if type =? 3 then
    js "<ul><li>List item 1</li><li>List item 2</li><li>List item 3</li></ul>"
  else if type =? 4 then js "<ol><li>Numbered item 1</li><li>Numbered item 2</li></ol>"
  else if type =? 5 then js "<blockquote>" ++ paragraph ++ js "</blockquote>"
  else if type =? 6 then
    js "<pre><code>const example = " ++ [quot] ++ js "code block "
    ++ Number_toString (i + 1) ++ [quot] ++ js ";</code></pre>"
  else
    js "<p><strong>Block " ++ Number_toString (i + 1) ++ js ":</strong> "
    ++ paragraph ++ js "</p>".

Module PerformanceTest.

(** [generateBlocks] of the editor's performance test: the content it
    passes to [updateContent]. *)
Definition generateBlocks (count : nat) : jsstring :=
  fold_left (fun htmlContent i => htmlContent ++ block_markup i) (seq 0 count) [].

End PerformanceTest.

Module App.

Record Block := { id : jsstring; content : jsstring }.

(** [generateBlocks] of the block-list performance test: the array it
    passes to [setBlocks]. *)
Definition generateBlocks (count : nat) : list Block :=
  fold_left
    (fun newBlocks i =>
       newBlocks ++ [{| id := js "block-" ++ Number_toString i; content := block_markup i |}])
    (seq 0 count) [].

End App.

(* ===================================================================== *)
(** * Auxiliary definitions for the further properties *)
(* ===================================================================== *)

(** The tags a block of each kind can open with. *)
Definition opening_tags (t : block_type) : list jsstring :=
  match t with
  | heading => map js ["h1"; "h2"; "h3"; "h4"; "h5"; "h6"]%string
  | list_ => map js ["ul"; "ol"]%string
  | code => [js "pre"]
  | blockquote => [js "blockquote"]
  | text => map js ["p"; "div"]%string
  end.

(** The content of [b] opens with a tag of the kind of [b]. *)
Definition opens (b : EditorBlock) : Prop :=
  exists (tag : jsstring) (c : ascii) (rest : jsstring),
    content b = js "<" ++ tag ++ c :: rest
    /\ (c = ">"%char \/ c = " "%char)
    /\ In tag (opening_tags (type b)).

Definition ascii_capital (c : ascii) : bool :=
  let n := charCode c in (65 <=? n) && (n <=? 90).

(** A tree as the HTML parser makes it.  The tokenizer puts the ASCII
    capitals of a tag name in lower case, so an HTML element has none in
    its local name; the names the parser adjusts for SVG keep theirs
    (clipPath), but a start tag with the name of a block leaves foreign
    content, so no SVG or MathML element has such a name. *)
Fixpoint parser_made (n : node) : bool :=
  match n with
  | Element ns localName _ children =>
      match ns with
      | HTML => negb (existsb ascii_capital localName)
      | _ => negb (includes block_tags (toLowerCase localName))
      end
      && forallb parser_made children
  | _ => true
  end.

(** The node a path of child indexes leads to. *)
Fixpoint node_at (n : node) (path : list nat) : option node :=
  match path with
  | [] => Some n
  | i :: path' =>
      match n with
      | Element _ _ _ children =>
          match nth_error children i with
          | Some c => node_at c path'
          | None => None
          end
      | _ => None
      end
  end.

(** The point [(path, offset)] of [n] lies in a text node, after at least
    one of its characters. *)
Definition in_text (n : node) (path : list nat) (offset : nat) : Prop :=
  exists data, node_at n path = Some (Text data) /\ 1 <= offset <= List.length data.

(** The number of words of [s]: the places where a character that is not
    white space begins a run; [inside] says that such a run is open. *)
Fixpoint word_starts (s : jsstring) (inside : bool) : nat :=
  match s with
  | [] => 0
  | c :: s' =>
      if is_ws c then word_starts s' false
      else (if inside then 0 else 1) + word_starts s' true
  end.

Definition no_gt (s : jsstring) : bool :=
  forallb (fun c => if ascii_dec c ">"%char then false else true) s.

(** A node whose markup holds a [>] only where a tag ends: no [>] in a
    name, in an attribute value or in a comment, no raw-text element, and
    no child under a void element. *)
Fixpoint tame (n : node) : bool :=
  match n with
  | Element ns name attrs children =>
      no_gt name
      && forallb (fun a => no_gt (fst a) && no_gt (snd a)) attrs
      && negb (html_element raw_text_elements ns name)
      && (negb (html_element void_elements ns name)
          || match children with [] => true | _ :: _ => false end)
      && forallb tame children
  | Text _ => true
  | Comment data => no_gt data
  end.

(** The tree whose markup is [block_markup i]. *)
Definition block_tree (i : nat) : node :=
  let type := i mod 10 in
  let paragraph := nth (i mod List.length paragraphTypes) paragraphTypes [] in
  let item s := Element HTML (js "li") [] [Text (js s)] in
  if type =? 0 then
    Element HTML (js "h1") [] [Text (js "Heading 1 - Block " ++ Number_toString (i + 1))]
  else if type =? 1 then
    Element HTML (js "h2") [] [Text (js "Heading 2 - Block " ++ Number_toString (i + 1))]
  else if type =? 2 then
    Element HTML (js "h3") [] [Text (js "Heading 3 - Block " ++ Number_toString (i + 1))]
  else if type =? 3 then
    Element HTML (js "ul") [] [item "List item 1"; item "List item 2"; item "List item 3"]%string
  else if type =? 4 then
    Element HTML (js "ol") [] [item "Numbered item 1"; item "Numbered item 2"]%string
  else if type =? 5 then Element HTML (js "blockquote") [] [Text paragraph]
  else if type =? 6 then
    Element HTML (js "pre") []
      [Element HTML (js "code") []
         [Text (js "const example = " ++ [quot] ++ js "code block "
                ++ Number_toString (i + 1) ++ [quot] ++ js ";")]]
  else
    Element HTML (js "p") []
      [Element HTML (js "strong") [] [Text (js "Block " ++ Number_toString (i + 1) ++ js ":")];
       Text (js " " ++ paragraph)].

(** The kind of the block that [block_markup i] makes. *)
Definition block_kind (i : nat) : block_type :=
  let type := i mod 10 in
  if type <? 3 then heading
  else if type <? 5 then list_
  else if type =? 5 then blockquote
  else if type =? 6 then code
  else text.

(* ===================================================================== *)
(** * Strings: basic facts *)
(* ===================================================================== *)

Lemma jsstring_eqb_neq (a b : jsstring) : jsstring_eqb a b = false <-> a <> b.
Proof.
  unfold jsstring_eqb. destruct (list_eq_dec ascii_dec a b); split; congruence.
Qed.

Lemma strip_ws_app (a b : jsstring) : strip_ws (a ++ b) = strip_ws a ++ strip_ws b.
Proof. apply filter_app. Qed.

Lemma js_inj (a b : string) : js a = js b -> a = b.
Proof.
  unfold js. intros H.
  rewrite <- (string_of_list_ascii_of_string a), <- (string_of_list_ascii_of_string b).
  now rewrite H.
Qed.

(** Decimal printing does not identify two counters. *)
Lemma Number_toString_inj (n m : nat) : Number_toString n = Number_toString m -> n = m.
Proof.
  unfold Number_toString. intros H. apply js_inj in H.
  assert (E : Some (Nat.to_uint n) = Some (Nat.to_uint m)).
  { rewrite <- (NilEmpty.usu (Nat.to_uint n)), <- (NilEmpty.usu (Nat.to_uint m)).
    now rewrite H. }
  injection E as E.
  rewrite <- (DecimalNat.Unsigned.of_to n), <- (DecimalNat.Unsigned.of_to m).
  now rewrite E.
Qed.

(* ===================================================================== *)
(** * The segmenter *)
(* ===================================================================== *)

Lemma push_well_numbered c t st : well_numbered st -> well_numbered (push c t st).
Proof.
  intros [Hn Hids]. unfold well_numbered, push. cbn [fst snd].
  rewrite length_app. cbn [List.length]. split; [lia|].
  rewrite map_app, Hids, Nat.add_1_r, seq_S, map_app. cbn [map id].
  now rewrite Hn.
Qed.

Lemma push_contents c t st :
  map content (fst (push c t st)) = map content (fst st) ++ [c].
Proof. unfold push. cbn [fst]. now rewrite map_app. Qed.

Lemma fold_processNode_well_numbered children :
  Forall (fun n => forall st, well_numbered st -> well_numbered (processNode n st)) children ->
  forall st, well_numbered st ->
  well_numbered (fold_left (fun st' c => processNode c st') children st).
Proof.
  induction 1 as [|c l Hc _ IH]; intros st Hst; cbn [fold_left]; auto.
Qed.

Lemma processNode_well_numbered n :
  forall st, well_numbered st -> well_numbered (processNode n st).
Proof.
  induction n as [ns name attrs children IH|data|data] using node_rect'; intros st Hst.
  - cbn [processNode].
    repeat match goal with
           | |- context [if ?b then _ else _] => destruct b
           end; try (now apply push_well_numbered).
    now apply fold_processNode_well_numbered.
  - cbn [processNode]. destruct (truthy (trim data)); [now apply push_well_numbered|assumption].
  - assumption.
Qed.

Lemma includes_block_tags (tagName : jsstring) :
  includes block_tags tagName =
  includes (map js ["h1"; "h2"; "h3"; "h4"; "h5"; "h6"]%string) tagName
  || includes (map js ["ul"; "ol"]%string) tagName
  || jsstring_eqb tagName (js "pre")
  || jsstring_eqb tagName (js "blockquote")
  || (jsstring_eqb tagName (js "p") || jsstring_eqb tagName (js "div")).
Proof.
  unfold includes, block_tags. cbn [map existsb].
  repeat rewrite orb_false_r. repeat rewrite orb_assoc. reflexivity.
Qed.

(** The traversal appends to the blocks it was given, and what it appends
    are the fragments of the node, in order. *)
Lemma fold_processNode_contents children :
  Forall (fun n => forall st,
            map content (fst (processNode n st)) = map content (fst st) ++ fragments n)
         children ->
  forall st,
    map content (fst (fold_left (fun st' c => processNode c st') children st))
    = map content (fst st) ++ flat_map fragments children.
Proof.
  induction 1 as [|c l Hc _ IH]; intros st; cbn [fold_left flat_map].
  - now rewrite app_nil_r.
  - now rewrite IH, Hc, app_assoc.
Qed.

Lemma processNode_contents n :
  forall st, map content (fst (processNode n st)) = map content (fst st) ++ fragments n.
Proof.
  induction n as [ns name attrs children IH|data|data] using node_rect'; intros st.
  - cbn [processNode fragments]. rewrite includes_block_tags.
    destruct (includes (map js ["h1"; "h2"; "h3"; "h4"; "h5"; "h6"]%string) _);
      [apply push_contents|].
    destruct (includes (map js ["ul"; "ol"]%string) _); [apply push_contents|].
    destruct (jsstring_eqb _ (js "pre")); [apply push_contents|].
    destruct (jsstring_eqb _ (js "blockquote")); [apply push_contents|].
    cbn [orb].
    destruct (jsstring_eqb _ (js "p") || jsstring_eqb _ (js "div"));
      [apply push_contents|].
    now apply fold_processNode_contents.
  - cbn [processNode fragments].
    destruct (truthy (trim data)); [apply push_contents|now rewrite app_nil_r].
  - cbn [processNode fragments]. now rewrite app_nil_r.
Qed.

Lemma emitted_contents (nodes : list node) :
  map content (emitted nodes) = flat_map fragments nodes.
Proof.
  unfold emitted. rewrite fold_processNode_contents; [reflexivity|].
  apply Forall_forall. intros n _. apply processNode_contents.
Qed.

Lemma emitted_well_numbered (nodes : list node) :
  map id (emitted nodes)
  = map (fun i => js "block-" ++ Number_toString i) (seq 0 (List.length (emitted nodes))).
Proof.
  unfold emitted.
  apply (fold_processNode_well_numbered nodes).
  - apply Forall_forall. intros n _. apply processNode_well_numbered.
  - split; reflexivity.
Qed.

Lemma parseContentIntoBlocks_cases parseFromString html :
  parseContentIntoBlocks parseFromString html =
  match emitted (body_childNodes (parseFromString html)) with
  | [] => [placeholder]
  | b :: bs => b :: bs
  end.
Proof.
  unfold parseContentIntoBlocks.
  destruct (emitted (body_childNodes (parseFromString html))); reflexivity.
Qed.

Lemma parseContentIntoBlocks_ids parseFromString html :
  let blocks := parseContentIntoBlocks parseFromString html in
  map id blocks = map (fun i => js "block-" ++ Number_toString i) (seq 0 (List.length blocks)).
Proof.
  cbv zeta. rewrite parseContentIntoBlocks_cases.
  pose proof (emitted_well_numbered (body_childNodes (parseFromString html))) as H.
  destruct (emitted (body_childNodes (parseFromString html))); [reflexivity|exact H].
Qed.

(** C6: the segmenter never returns an empty list: when the traversal finds
    no block (in particular when the parsed body has no child at all), the
    result is exactly the one synthesized placeholder block. *)
Theorem parseContentIntoBlocks_never_empty :
  forall (parseFromString : jsstring -> document) (html : jsstring),
    parseContentIntoBlocks parseFromString html <> []
    /\ (emitted (body_childNodes (parseFromString html)) = [] ->
        parseContentIntoBlocks parseFromString html = [placeholder])
    /\ (body_childNodes (parseFromString html) = [] ->
        parseContentIntoBlocks parseFromString html = [placeholder]).
Proof.
  intros parseFromString html. rewrite parseContentIntoBlocks_cases.
  split; [|split].
  - destruct (emitted _); discriminate.
  - intros ->. reflexivity.
  - intros ->. reflexivity.
Qed.

(** The empty snapshot, parsed to a body without children, and a body that
    holds only a comment and blank text. *)
Lemma parseContentIntoBlocks_never_empty_witness :
  parseContentIntoBlocks (fun _ => {| body_childNodes := [] |}) [] = [placeholder]
  /\ parseContentIntoBlocks
       (fun _ => {| body_childNodes := [Comment (js "x"); Text (js "  ")] |})
       (js "<!--x-->  ") = [placeholder].
Proof.
  split.
  - apply (proj2 (proj2 (parseContentIntoBlocks_never_empty
                           (fun _ => {| body_childNodes := [] |}) []))).
    reflexivity.
  - apply (proj1 (proj2 (parseContentIntoBlocks_never_empty
                           (fun _ => {| body_childNodes := [Comment (js "x"); Text (js "  ")] |})
                           (js "<!--x-->  ")))).
    reflexivity.
Defined.

(** C10: the block at index [i] of the returned list has the identifier
    block-i, so the identifiers of one pass are pairwise distinct. *)
Theorem block_ids_sequential :
  forall (parseFromString : jsstring -> document) (html : jsstring),
    (forall i b,
        nth_error (parseContentIntoBlocks parseFromString html) i = Some b ->
        id b = js "block-" ++ Number_toString i)
    /\ NoDup (map id (parseContentIntoBlocks parseFromString html)).
Proof.
  intros parseFromString html.
  pose proof (parseContentIntoBlocks_ids parseFromString html) as H. cbv zeta in H.
  split.
  - intros i b Hi.
    assert (Hlt : i < List.length (parseContentIntoBlocks parseFromString html))
      by (apply nth_error_Some; rewrite Hi; discriminate).
    apply (map_nth_error id) in Hi. rewrite H in Hi.
    rewrite nth_error_map, nth_error_seq in Hi.
    apply Nat.ltb_lt in Hlt. rewrite Hlt in Hi. cbn [option_map Nat.add] in Hi. congruence.
  - rewrite H. apply Finite.Injective_map_NoDup; [|apply seq_NoDup].
    intros n m E. apply app_inv_head in E. now apply Number_toString_inj.
Qed.

Lemma block_ids_sequential_witness :
  id {| id := js "block-1"; content := js "<p>b</p>"; type := text |}
  = js "block-" ++ Number_toString 1.
Proof.
  apply (proj1 (block_ids_sequential
                  (fun _ => {| body_childNodes :=
                                 [Element HTML (js "h1") [] [Text (js "a")];
                                  Element HTML (js "span") [] [Text (js "b")]] |})
                  (js "<h1>a</h1><span>b</span>")) 1).
  reflexivity.
Defined.

(** ** Losslessness *)

Lemma trimStart_blank (s : jsstring) : forallb is_ws s = true -> trimStart s = [].
Proof.
  induction s as [|c s IH]; cbn [forallb trimStart]; [reflexivity|].
  intros H. apply andb_true_iff in H as [-> H]. auto.
Qed.

Lemma trim_blank (s : jsstring) : forallb is_ws s = true -> trim s = [].
Proof. intros H. unfold trim, trimEnd. now rewrite (trimStart_blank _ H). Qed.

Lemma is_ascii_ws_is_ws (s : jsstring) : forallb is_ascii_ws s = true -> forallb is_ws s = true.
Proof.
  induction s as [|c s IH]; cbn [forallb]; [reflexivity|].
  unfold is_ascii_ws at 1. intros H.
  apply andb_true_iff in H as [H1 H2]. apply andb_true_iff in H1 as [-> _]. auto.
Qed.

Lemma escape_char_ascii_ws (c : ascii) : is_ascii_ws c = true -> escape_char false c = [c].
Proof.
  unfold escape_char, is_ascii_ws. intros H.
  destruct (ascii_dec c "&"); [subst; discriminate|].
  destruct (ascii_dec c nbsp); [subst; discriminate|].
  destruct (ascii_dec c "<"); [subst; discriminate|].
  destruct (ascii_dec c ">"); [subst; discriminate|].
  reflexivity.
Qed.

Lemma strip_ws_blank_markup (data : jsstring) :
  forallb is_ascii_ws data = true -> strip_ws (escape false data) = [].
Proof.
  induction data as [|c s IH]; cbn [forallb]; [reflexivity|].
  intros H. apply andb_true_iff in H as [Hc H].
  unfold escape. cbn [flat_map]. rewrite (escape_char_ascii_ws _ Hc).
  cbn [app strip_ws filter].
  unfold is_ascii_ws in Hc. apply andb_true_iff in Hc as [-> _]. cbn [negb].
  now apply IH.
Qed.

Lemma fragments_top_level (n : node) :
  block_element n || blank_text n = true ->
  strip_ws (List.concat (fragments n)) = strip_ws (serialize false n).
Proof.
  destruct n as [ns name attrs children|data|data]; cbn [block_element blank_text orb].
  - rewrite orb_false_r. intros H. cbn [fragments]. rewrite H.
    cbn [List.concat]. now rewrite app_nil_r.
  - intros H. cbn [fragments serialize].
    rewrite (trim_blank _ (is_ascii_ws_is_ws _ H)). cbn [truthy List.concat].
    now rewrite strip_ws_blank_markup.
  - discriminate.
Qed.

Lemma fragments_body (nodes : list node) :
  Forall (fun n => block_element n || blank_text n = true) nodes ->
  strip_ws (List.concat (flat_map fragments nodes)) = strip_ws (innerHTML nodes).
Proof.
  unfold innerHTML.
  induction 1 as [|n l Hn _ IH]; cbn [flat_map List.concat]; [reflexivity|].
  now rewrite concat_app, !strip_ws_app, IH, (fragments_top_level _ Hn).
Qed.

Lemma fragments_block_element (nodes : list node) :
  Exists (fun n => block_element n = true) nodes -> flat_map fragments nodes <> [].
Proof.
  induction 1 as [n l Hn|n l _ IH]; cbn [flat_map]; intros E; apply app_eq_nil in E as [E1 E2].
  - destruct n as [ns name attrs children|data|data]; try discriminate.
    cbn [block_element] in Hn. cbn [fragments] in E1. rewrite Hn in E1. discriminate.
  - auto.
Qed.




(* ===================================================================== *)
(** * The replicated document: the snapshot codec *)
(* ===================================================================== *)

Lemma dec_pos_enc (p : positive) (r : list Loro.byte) :
  Loro.dec_pos (Loro.enc_pos p ++ r) = Some (p, r).
Proof.
  induction p as [q IH|q IH|]; cbn [Loro.enc_pos Loro.dec_pos app];
    try rewrite IH; reflexivity.
Qed.

Lemma dec_nat_enc (n : nat) (r : list Loro.byte) :
  Loro.dec_nat (Loro.enc_nat n ++ r) = Some (n, r).
Proof.
  unfold Loro.enc_nat. destruct (N.of_nat n) as [|p] eqn:E.
  - cbn. f_equal. f_equal. lia.
  - assert (Hn : Pos.to_nat p = n) by lia.
    unfold Loro.dec_nat.
    destruct p as [q|q|]; cbn [Loro.enc_pos app Loro.dec_pos];
      rewrite ?dec_pos_enc, <- Hn; reflexivity.
Qed.

Section Codec.
Variable A : Type.
Variable enc : A -> list Loro.byte.
Variable dec : Loro.parser A.

Lemma dec_items_enc (l : list A) :
  Forall (fun x => forall r, dec (enc x ++ r) = Some (x, r)) l ->
  forall r, Loro.dec_items dec (List.length l) (flat_map enc l ++ r) = Some (l, r).
Proof.
  induction 1 as [|x l Hx _ IH]; intros r; cbn [List.length flat_map Loro.dec_items];
    [reflexivity|].
  now rewrite <- app_assoc, Hx, IH.
Qed.

Lemma dec_list_enc (l : list A) :
  Forall (fun x => forall r, dec (enc x ++ r) = Some (x, r)) l ->
  forall r, Loro.dec_list dec (Loro.enc_list enc l ++ r) = Some (l, r).
Proof.
  intros H r. unfold Loro.dec_list, Loro.enc_list.
  now rewrite <- app_assoc, dec_nat_enc, dec_items_enc.
Qed.
End Codec.

Lemma dec_string_enc (s : jsstring) (r : list Loro.byte) :
  Loro.dec_string (Loro.enc_string s ++ r) = Some (s, r).
Proof.
  unfold Loro.dec_string, Loro.enc_string.
  replace (map byte_of_ascii s) with (flat_map (fun c => [byte_of_ascii c]) s)
    by (induction s; cbn; congruence).
  change (Loro.enc_nat (List.length s) ++ flat_map (fun c => [byte_of_ascii c]) s)
    with (Loro.enc_list (fun c => [byte_of_ascii c]) s).
  apply dec_list_enc. apply Forall_forall. intros c _ r'.
  cbn. now rewrite ascii_of_byte_of_ascii.
Qed.

Lemma dec_op_enc (o : Loro.op) (r : list Loro.byte) :
  Loro.dec_op (Loro.enc_op o ++ r) = Some (o, r).
Proof.
  destruct o as [p s|p n]; cbn [Loro.enc_op Loro.dec_op app].
  - now rewrite <- app_assoc, dec_nat_enc, dec_string_enc.
  - now rewrite <- app_assoc, !dec_nat_enc.
Qed.

(** A snapshot that was exported is read back as it was. *)
Lemma decode_encode (s : Loro.snapshot) : Loro.decode (Loro.encode s) = Some s.
Proof.
  unfold Loro.encode, Loro.decode, Loro.magic. cbn [app].
  rewrite dec_list_enc.
  - rewrite <- (app_nil_r (Loro.enc_string _)), dec_string_enc. now destruct s.
  - apply Forall_forall. intros c _ r. apply dec_list_enc.
    apply Forall_forall. intros o _ r'. apply dec_op_enc.
Qed.

(* ===================================================================== *)
(** * The document store *)
(* ===================================================================== *)

Lemma length_of_nat_pos (A : Type) (l : list A) :
  l <> [] -> (0 <? Z.of_nat (List.length l))%Z = true.
Proof. destruct l; [congruence|]. intros _. cbn [List.length]. apply Z.ltb_lt. lia. Qed.

Lemma truthy_true (s : jsstring) : truthy s = true <-> s <> [].
Proof. destruct s; cbn; split; congruence. Qed.

(** Deleting the whole text. *)
Lemma delete_all (d : Loro.doc) :
  Loro.text d <> [] ->
  Loro.delete 0 (Loro.length d) d
  = inr {| Loro.text := []; Loro.pending := Loro.pending d ++ [Loro.Delete 0 (List.length (Loro.text d))];
           Loro.oplog := Loro.oplog d; Loro.events := Loro.events d |}.
Proof.
  intros H. unfold Loro.delete, Loro.length.
  pose proof (length_of_nat_pos _ _ H) as Hl. apply Z.ltb_lt in Hl.
  destruct (Z.eqb_spec (Z.of_nat (List.length (Loro.text d))) 0); [lia|].
  replace ((0 <=? 0)%Z && (0 <=? Z.of_nat (List.length (Loro.text d)))%Z
           && (0 + Z.of_nat (List.length (Loro.text d)) <=? Z.of_nat (List.length (Loro.text d)))%Z)
    with true
    by (symmetry; rewrite !andb_true_iff; repeat split; apply Z.leb_le; lia).
  rewrite Nat2Z.id. cbn [Z.to_nat firstn Nat.add app]. now rewrite skipn_all.
Qed.

(** Inserting at the front. *)
Lemma insert_front (x : jsstring) (d : Loro.doc) :
  x <> [] ->
  Loro.insert 0 x d
  = inr {| Loro.text := x ++ Loro.text d; Loro.pending := Loro.pending d ++ [Loro.Insert 0 x];
           Loro.oplog := Loro.oplog d; Loro.events := Loro.events d |}.
Proof.
  intros H. unfold Loro.insert. apply truthy_true in H. rewrite H. cbn [negb].
  replace ((0 <=? 0)%Z && (0 <=? Loro.length d)%Z) with true
    by (symmetry; apply andb_true_iff; split; apply Z.leb_le; unfold Loro.length; lia).
  reflexivity.
Qed.

Ltac store_unfold :=
  unfold Store.bind, Store.when, Store.call, Store.ret, Store.setContent,
    Store.set_isInternalUpdate, Store.text_length, Store.subscriber;
  cbn -[Loro.insert Loro.delete Loro.import Nat.sub].

Lemma updateContent_mounted (x : jsstring) (h : Store.hook) (d : Loro.doc) :
  Store.loroDocRef h = Some d -> Loro.pending d = [] ->
  Store.updateContent x h
  = Store.Normal tt {| Store.loroDocRef := Some (updated x d); Store.content := x;
                       Store.isInternalUpdateRef := false |}.
Proof.
  intros Hd Hp. destruct h as [doc c f]. cbn [Store.loroDocRef] in Hd. subst doc.
  destruct d as [t p l e]. cbn [Loro.pending] in Hp. subst p.
  unfold Store.updateContent. cbn [Store.loroDocRef].
  assert (E1 : S e - e = 1) by lia.
  destruct t as [|a t]; destruct x as [|b x]; store_unfold.
  - rewrite Nat.sub_diag. reflexivity.
  - rewrite insert_front by discriminate.
    store_unfold. rewrite Nat.sub_diag, app_nil_r. store_unfold. rewrite E1. reflexivity.
  - change (Zpos (Pos.of_succ_nat (List.length t)))
      with (Loro.length {| Loro.text := a :: t; Loro.pending := []; Loro.oplog := l; Loro.events := e |}).
    rewrite delete_all by discriminate. 
    store_unfold. rewrite Nat.sub_diag. store_unfold. rewrite E1. reflexivity.
  - change (Zpos (Pos.of_succ_nat (List.length t)))
      with (Loro.length {| Loro.text := a :: t; Loro.pending := []; Loro.oplog := l; Loro.events := e |}).
    rewrite delete_all by discriminate.
    store_unfold. rewrite Nat.sub_diag. store_unfold.
    rewrite insert_front by discriminate.
    store_unfold. rewrite Nat.sub_diag, app_nil_r. store_unfold. rewrite E1. reflexivity.
Qed.

Lemma settled_at_rest (h : Store.hook) :
  settled h <->
  exists d, h = at_rest d /\ Loro.pending d = [] /\ (Loro.oplog d = [] -> Loro.text d = []).
Proof.
  split.
  - intros (d & Hd & Hp & Hc & Hf & Hl). exists d. repeat split; auto.
    destruct h as [doc c f]. cbn in *. subst. reflexivity.
  - intros (d & -> & Hp & Hl). exists d. repeat split; auto.
Qed.

Lemma insert_cases (pos : Z) (s : jsstring) (d d' : Loro.doc) :
  Loro.insert pos s d = inr d' ->
  d' = d \/ (Loro.events d' = Loro.events d /\ Loro.pending d' <> []
             /\ Loro.oplog d' = Loro.oplog d).
Proof.
  unfold Loro.insert. destruct (_ && _); [|discriminate].
  destruct (negb (truthy s)); [intros [= <-]; now left|].
  intros [= <-]. right. cbn.
  repeat split. now destruct (Loro.pending d).
Qed.

Lemma delete_cases (pos len : Z) (d d' : Loro.doc) :
  Loro.delete pos len d = inr d' ->
  d' = d \/ (Loro.events d' = Loro.events d /\ Loro.pending d' <> []
             /\ Loro.oplog d' = Loro.oplog d).
Proof.
  unfold Loro.delete. destruct (len =? 0)%Z; [intros [= <-]; now left|].
  destruct (_ && _); [|discriminate]. intros [= <-]. right. cbn.
  repeat split. now destruct (Loro.pending d).
Qed.

(** An edit of the text followed by [commit], in a store at rest. *)
Lemma edit_then_commit (f : Loro.doc -> Loro.error + Loro.doc) (d : Loro.doc) :
  Loro.pending d = [] ->
  (forall d', f d = inr d' ->
     d' = d \/ (Loro.events d' = Loro.events d /\ Loro.pending d' <> []
                /\ Loro.oplog d' = Loro.oplog d)) ->
  Store.bind (Store.call f) (fun _ => Store.call (fun d0 => inr (Loro.commit d0))) (at_rest d)
  = match f d with
    | inl e => Store.Abrupt e (at_rest d)
    | inr d' => Store.Normal tt (at_rest (Loro.commit d'))
    end.
Proof.
  intros Hp Hf. unfold Store.bind, Store.call at 1. cbn [Store.loroDocRef at_rest].
  destruct (f d) as [e|d'] eqn:E; [reflexivity|].
  destruct (Hf d' eq_refl) as [->|(He & Hne & _)].
  - rewrite Nat.sub_diag. cbn [Store.deliver Store.ret].
    unfold Store.call. cbn [Store.loroDocRef].
    unfold Loro.commit. rewrite Hp, Nat.sub_diag. reflexivity.
  - rewrite He, Nat.sub_diag. cbn [Store.deliver Store.ret].
    unfold Store.call. cbn [Store.loroDocRef Store.content Store.isInternalUpdateRef].
    unfold Loro.commit. destruct (Loro.pending d') as [|o p]; [congruence|].
    cbn [Loro.events]. replace (S (Loro.events d') - Loro.events d') with 1 by lia.
    reflexivity.
Qed.

Lemma insertText_at_rest (t : jsstring) (position : option Z) (d : Loro.doc) :
  Loro.pending d = [] ->
  Store.insertText t position (at_rest d)
  = match Loro.insert (match position with Some p => p | None => Loro.length d end) t d with
    | inl e => Store.Abrupt e (at_rest d)
    | inr d' => Store.Normal tt (at_rest (Loro.commit d'))
    end.
Proof.
  intros Hp. unfold Store.insertText. cbn [Store.loroDocRef at_rest].
  unfold Store.bind at 1. cbn [Store.text_length Store.loroDocRef].
  apply edit_then_commit; [assumption|]. intros d'. apply insert_cases.
Qed.

Lemma deleteText_at_rest (start len : Z) (d : Loro.doc) :
  Loro.pending d = [] ->
  Store.deleteText start len (at_rest d)
  = match Loro.delete start len d with
    | inl e => Store.Abrupt e (at_rest d)
    | inr d' => Store.Normal tt (at_rest (Loro.commit d'))
    end.
Proof.
  intros Hp. unfold Store.deleteText. cbn [Store.loroDocRef at_rest].
  apply edit_then_commit; [assumption|]. intros d'. apply delete_cases.
Qed.

Lemma commit_at_rest (d : Loro.doc) : Loro.pending d = [] -> Loro.commit d = d.
Proof. unfold Loro.commit. now intros ->. Qed.

Lemma loadSnapshot_at_rest resolve (bytes : list Loro.byte) (d : Loro.doc) :
  Loro.pending d = [] ->
  Store.loadSnapshot resolve bytes (at_rest d)
  = match Loro.import resolve bytes d with
    | inl e => Store.Abrupt e (at_rest d)
    | inr d' => Store.Normal tt (at_rest d')
    end.
Proof.
  intros Hp. unfold Store.loadSnapshot, Store.call. cbn [Store.loroDocRef at_rest].
  unfold Loro.import. destruct (Loro.decode bytes) as [remote|]; [|reflexivity].
  rewrite (commit_at_rest _ Hp).
  destruct (Loro.is_prefix (Loro.snap_oplog remote) (Loro.oplog d)).
  - now rewrite Nat.sub_diag.
  - destruct (Loro.is_prefix (Loro.oplog d) (Loro.snap_oplog remote)); cbn [Loro.events];
      replace (S (Loro.events d) - Loro.events d) with 1 by lia; reflexivity.
Qed.

Lemma commit_pending (d : Loro.doc) : Loro.pending (Loro.commit d) = [].
Proof. unfold Loro.commit. destruct (Loro.pending d) eqn:E; [exact E|reflexivity]. Qed.

Lemma commit_text (d : Loro.doc) : Loro.text (Loro.commit d) = Loro.text d.
Proof. unfold Loro.commit. now destruct (Loro.pending d). Qed.

Lemma commit_history (d d' : Loro.doc) :
  Loro.pending d = [] -> (Loro.oplog d = [] -> Loro.text d = []) ->
  d' = d \/ (Loro.events d' = Loro.events d /\ Loro.pending d' <> []
             /\ Loro.oplog d' = Loro.oplog d) ->
  Loro.oplog (Loro.commit d') = [] -> Loro.text (Loro.commit d') = [].
Proof.
  intros Hp Hl [->|(_ & Hne & _)].
  - now rewrite (commit_at_rest _ Hp).
  - unfold Loro.commit. destruct (Loro.pending d'); [congruence|].
    cbn [Loro.oplog]. intros E. now apply app_eq_nil in E as [_ E].
Qed.

Lemma import_history resolve (bytes : list Loro.byte) (d d' : Loro.doc) :
  Loro.pending d = [] -> (Loro.oplog d = [] -> Loro.text d = []) ->
  Loro.import resolve bytes d = inr d' ->
  Loro.pending d' = [] /\ (Loro.oplog d' = [] -> Loro.text d' = []).
Proof.
  intros Hp Hl. unfold Loro.import.
  destruct (Loro.decode bytes) as [remote|]; [|discriminate].
  rewrite (commit_at_rest _ Hp).
  destruct (Loro.is_prefix (Loro.snap_oplog remote) (Loro.oplog d)) eqn:E1.
  - intros [= <-]. auto.
  - destruct (Loro.is_prefix (Loro.oplog d) (Loro.snap_oplog remote)) eqn:E2;
      intros [= <-]; cbn; split; auto; intros E.
    + rewrite E in E1. now destruct (Loro.oplog d).
    + apply app_eq_nil in E as [E _]. rewrite E in E2. discriminate.
Qed.

Lemma text_updated (x : jsstring) (d : Loro.doc) : Loro.text (updated x d) = x.
Proof.
  unfold updated. destruct (Loro.text d) eqn:E; destruct x; cbn; congruence.
Qed.

Lemma updateContent_at_rest (x : jsstring) (d : Loro.doc) :
  Loro.pending d = [] ->
  Store.updateContent x (at_rest d) = Store.Normal tt (at_rest (updated x d)).
Proof.
  intros Hp. rewrite (updateContent_mounted x (at_rest d) d) by auto.
  unfold at_rest. now rewrite text_updated.
Qed.

Lemma updated_history (x : jsstring) (d : Loro.doc) :
  Loro.pending d = [] -> (Loro.oplog d = [] -> Loro.text d = []) ->
  Loro.pending (updated x d) = [] /\ (Loro.oplog (updated x d) = [] -> Loro.text (updated x d) = []).
Proof.
  intros Hp Hl. unfold updated.
  destruct (Loro.text d) eqn:E; destruct x; cbn; split; auto;
    intros H; apply app_eq_nil in H as [_ H]; discriminate.
Qed.

(** Every state a mounted store can be in is at rest. *)
Lemma reachable_settled resolve (h : Store.hook) :
  Store.reachable resolve h -> settled h.
Proof.
  induction 1 as [|h r _ IH].
  - apply settled_at_rest. exists Loro.new. repeat split.
  - apply settled_at_rest in IH as (d & -> & Hp & Hl).
    apply settled_at_rest.
    destruct r as [x|t position|start len|bytes]; cbn [Store.perform].
    + rewrite updateContent_at_rest by assumption. cbn [Store.after].
      exists (updated x d). split; [reflexivity|]. now apply updated_history.
    + rewrite insertText_at_rest by assumption.
      destruct (Loro.insert _ t d) as [e|d'] eqn:E; cbn [Store.after].
      * exists d. auto.
      * exists (Loro.commit d'). split; [reflexivity|].
        split; [apply commit_pending|].
        apply (commit_history d d' Hp Hl). eapply insert_cases; eassumption.
    + rewrite deleteText_at_rest by assumption.
      destruct (Loro.delete start len d) as [e|d'] eqn:E; cbn [Store.after].
      * exists d. auto.
      * exists (Loro.commit d'). split; [reflexivity|].
        split; [apply commit_pending|].
        apply (commit_history d d' Hp Hl). eapply delete_cases; eassumption.
    + rewrite loadSnapshot_at_rest by assumption.
      destruct (Loro.import resolve bytes d) as [e|d'] eqn:E; cbn [Store.after].
      * exists d. auto.
      * exists d'. split; [reflexivity|]. eapply import_history; eassumption.
Qed.

(** ** C1: writing the content the store already holds *)


Lemma reachable_store_ab : Store.reachable no_resolve store_ab.
Proof.
  exact (Store.reach_step no_resolve _ (Store.UpdateContent (js "ab")) (Store.reach_mount no_resolve)).
Qed.



(** ** C2: a malformed snapshot *)

(** C2, as the code has it: bytes that are not a snapshot leave the store
    exactly as it was, content included; a mounted store does not return a
    failure value for them: the decoding error of the document's [import]
    leaves [loadSnapshot] as an exception, for the caller to catch; a store
    that is not mounted returns without a word. *)
Theorem loadSnapshot_malformed :
  forall (resolve : Loro.snapshot -> Loro.snapshot -> jsstring)
         (h : Store.hook) (bytes : list Loro.byte),
    Loro.decode bytes = None ->
    Store.after (Store.loadSnapshot resolve bytes h) = h
    /\ (Store.loroDocRef h <> None ->
        Store.loadSnapshot resolve bytes h = Store.Abrupt Loro.DecodeError h)
    /\ (Store.loroDocRef h = None ->
        Store.loadSnapshot resolve bytes h = Store.Normal tt h).
Proof.
  intros resolve h bytes Hb.
  unfold Store.loadSnapshot, Store.call, Loro.import.
  destruct (Store.loroDocRef h) as [d|]; rewrite ?Hb; cbn [Store.after];
    repeat split; congruence.
Qed.

Lemma loadSnapshot_malformed_witness :
  Store.loadSnapshot no_resolve garbage store_ab = Store.Abrupt Loro.DecodeError store_ab.
Proof.
  apply (proj1 (proj2 (loadSnapshot_malformed no_resolve store_ab garbage eq_refl))).
  discriminate.
Defined.

(** C2 as stated fails: on garbage the call does not return at all, with a
    failure value or any other. *)
Lemma loadSnapshot_malformed_does_not_return :
  Loro.decode garbage = None
  /\ ~ (exists (v : unit) (h' : Store.hook),
           Store.loadSnapshot no_resolve garbage store_ab = Store.Normal v h').
Proof.
  split; [reflexivity|]. intros (v & h' & H). vm_compute in H. discriminate H.
Qed.

(** ** C3: snapshot round trip *)

Lemma export_at_rest (d : Loro.doc) :
  Loro.pending d = [] ->
  Loro.decode (Loro.export d)
  = Some {| Loro.snap_oplog := Loro.oplog d; Loro.snap_text := Loro.text d |}.
Proof.
  intros Hp. unfold Loro.export, Loro.state_of.
  now rewrite decode_encode, (commit_at_rest _ Hp).
Qed.

(** C3: the snapshot of any store a client can have built, loaded into a
    freshly mounted store, gives that store the same content. *)
Theorem snapshot_round_trip :
  forall (resolve : Loro.snapshot -> Loro.snapshot -> jsstring) (h : Store.hook),
    Store.reachable resolve h ->
    exists (bytes : list Loro.byte) (h' : Store.hook),
      Store.getSnapshot h = Some bytes
      /\ Store.loadSnapshot resolve bytes (Store.mount Store.initial) = Store.Normal tt h'
      /\ Store.content h' = Store.content h
      /\ Store.doc_text h' = Store.doc_text h.
Proof.
  intros resolve h Hr.
  apply reachable_settled, settled_at_rest in Hr as (d & -> & Hp & Hl).
  exists (Loro.export d).
  change (Store.mount Store.initial) with (at_rest Loro.new).
  rewrite loadSnapshot_at_rest by reflexivity.
  unfold Loro.import. rewrite (export_at_rest d Hp).
  cbn [Loro.snap_oplog Loro.snap_text Loro.commit Loro.new Loro.pending Loro.oplog
       Loro.is_prefix Loro.events].
  destruct (Loro.oplog d) as [|c l] eqn:E.
  - exists (at_rest Loro.new). cbn [Loro.is_prefix].
    split; [reflexivity|]. split; [reflexivity|].
    cbn. unfold Loro.toString. rewrite (Hl eq_refl). split; reflexivity.
  - cbn [Loro.is_prefix]. eexists. repeat split.
Qed.

Lemma snapshot_round_trip_witness :
  exists (bytes : list Loro.byte) (h' : Store.hook),
    Store.getSnapshot store_ab = Some bytes
    /\ Store.loadSnapshot no_resolve bytes (Store.mount Store.initial) = Store.Normal tt h'
    /\ Store.content h' = js "ab".
Proof.
  destruct (snapshot_round_trip no_resolve store_ab reachable_store_ab) as (bytes & h' & H1 & H2 & H3 & _).
  exists bytes, h'. auto.
Defined.

(** ** C4: edits at an offset *)

Lemma insert_in_range (pos : Z) (t : jsstring) (d : Loro.doc) :
  (0 <= pos <= Loro.length d)%Z ->
  exists d', Loro.insert pos t d = inr d'
             /\ Loro.text d'
                = firstn (Z.to_nat pos) (Loro.text d) ++ t ++ skipn (Z.to_nat pos) (Loro.text d).
Proof.
  intros [H0 H1]. unfold Loro.insert.
  apply Z.leb_le in H0, H1. rewrite H0, H1. cbn [andb].
  destruct t as [|c t]; cbn [truthy negb].
  - exists d. split; [reflexivity|]. cbn [app]. now rewrite firstn_skipn.
  - eexists. split; reflexivity.
Qed.

Lemma insert_out_of_range (pos : Z) (t : jsstring) (d : Loro.doc) :
  t <> [] -> (pos < 0 \/ Loro.length d < pos)%Z ->
  Loro.insert pos t d = inl Loro.OutOfBound.
Proof.
  intros Ht H. unfold Loro.insert.
  destruct ((0 <=? pos)%Z && (pos <=? Loro.length d)%Z) eqn:E; [|reflexivity].
  apply andb_true_iff in E as [E1 E2]. apply Z.leb_le in E1, E2. lia.
Qed.

Lemma delete_in_range (start len : Z) (d : Loro.doc) :
  (0 <= start)%Z -> (0 <= len)%Z -> (start + len <= Loro.length d)%Z ->
  exists d', Loro.delete start len d = inr d'
             /\ Loro.text d'
                = firstn (Z.to_nat start) (Loro.text d)
                  ++ skipn (Z.to_nat start + Z.to_nat len) (Loro.text d).
Proof.
  intros H0 H1 H2. unfold Loro.delete. destruct (Z.eqb_spec len 0) as [->|Hlen].
  - exists d. split; [reflexivity|]. cbn [Z.to_nat]. now rewrite Nat.add_0_r, firstn_skipn.
  - apply Z.leb_le in H0, H1, H2. rewrite H0, H1, H2. cbn [andb].
    eexists. split; reflexivity.
Qed.

Lemma delete_out_of_range (start len : Z) (d : Loro.doc) :
  len <> 0%Z -> (start < 0 \/ len < 0 \/ Loro.length d < start + len)%Z ->
  Loro.delete start len d = inl Loro.OutOfBound.
Proof.
  intros Hlen H. unfold Loro.delete. destruct (Z.eqb_spec len 0); [contradiction|].
  destruct ((0 <=? start)%Z && (0 <=? len)%Z && (start + len <=? Loro.length d)%Z) eqn:E;
    [|reflexivity].
  apply andb_true_iff in E as [E E3]. apply andb_true_iff in E as [E1 E2].
  apply Z.leb_le in E1, E2, E3. lia.
Qed.

(** C4, as the code has it: on a store that is not mounted both calls
    return and change nothing.  On a mounted store the offsets go to the
    text container as they are: an edit inside the content is made at that
    very offset and committed; an offset outside the content is not clamped,
    the container's out-of-bound error leaves the call as an exception and
    the store is unchanged. *)
Theorem edits_are_not_clamped :
  forall (resolve : Loro.snapshot -> Loro.snapshot -> jsstring) (h : Store.hook)
         (t : jsstring) (pos start len : Z),
    let c := Store.content h in
    let n := Z.of_nat (List.length c) in
    (Store.loroDocRef h = None ->
     Store.insertText t (Some pos) h = Store.Normal tt h
     /\ Store.insertText t None h = Store.Normal tt h
     /\ Store.deleteText start len h = Store.Normal tt h)
    /\ (Store.reachable resolve h ->
        ((0 <= pos <= n)%Z ->
         exists h', Store.insertText t (Some pos) h = Store.Normal tt h'
                    /\ Store.content h'
                       = firstn (Z.to_nat pos) c ++ t ++ skipn (Z.to_nat pos) c)
        /\ (exists h', Store.insertText t None h = Store.Normal tt h'
                       /\ Store.content h' = c ++ t)
        /\ (t <> [] -> (pos < 0 \/ n < pos)%Z ->
            Store.insertText t (Some pos) h = Store.Abrupt Loro.OutOfBound h)
        /\ ((0 <= start)%Z -> (0 <= len)%Z -> (start + len <= n)%Z ->
            exists h', Store.deleteText start len h = Store.Normal tt h'
                       /\ Store.content h'
                          = firstn (Z.to_nat start) c
                            ++ skipn (Z.to_nat start + Z.to_nat len) c)
        /\ (len <> 0%Z -> (start < 0 \/ len < 0 \/ n < start + len)%Z ->
            Store.deleteText start len h = Store.Abrupt Loro.OutOfBound h)).
Proof.
  intros resolve h t pos start len c n. split.
  - intros Hd. unfold Store.insertText, Store.deleteText. rewrite Hd. auto.
  - intros Hr.
    apply reachable_settled, settled_at_rest in Hr as (d & -> & Hp & _).
    cbn [Store.content at_rest] in c. subst c n.
    change (Z.of_nat (List.length (Loro.text d))) with (Loro.length d).
    rewrite !insertText_at_rest, deleteText_at_rest by assumption.
    split; [|split; [|split; [|split]]].
    + intros Hpos. destruct (insert_in_range pos t d Hpos) as (d' & -> & Ht).
      eexists. split; [reflexivity|]. cbn [Store.content at_rest].
      now rewrite commit_text.
    + destruct (insert_in_range (Loro.length d) t d) as (d' & -> & Ht).
      { unfold Loro.length. lia. }
      eexists. split; [reflexivity|]. cbn [Store.content at_rest].
      rewrite commit_text, Ht. unfold Loro.length.
      now rewrite Nat2Z.id, firstn_all, skipn_all, app_nil_r.
    + intros Ht Hpos. now rewrite insert_out_of_range.
    + intros H0 H1 H2. destruct (delete_in_range start len d H0 H1 H2) as (d' & -> & Ht).
      eexists. split; [reflexivity|]. cbn [Store.content at_rest].
      now rewrite commit_text.
    + intros Hlen Hout. now rewrite delete_out_of_range.
Qed.

Lemma edits_are_not_clamped_witness :
  Store.insertText (js "x") (Some 5%Z) Store.initial = Store.Normal tt Store.initial
  /\ (exists h', Store.insertText (js "x") (Some 1%Z) store_ab = Store.Normal tt h'
                 /\ Store.content h' = js "axb")
  /\ Store.insertText (js "x") (Some 5%Z) store_ab = Store.Abrupt Loro.OutOfBound store_ab
  /\ (exists h', Store.deleteText 1 1 store_ab = Store.Normal tt h'
                 /\ Store.content h' = js "a")
  /\ Store.deleteText 1 5 store_ab = Store.Abrupt Loro.OutOfBound store_ab.
Proof.
  split; [|split; [|split; [|split]]].
  - apply (proj1 (edits_are_not_clamped no_resolve Store.initial (js "x") 5 0 0)).
    reflexivity.
  - apply (proj2 (edits_are_not_clamped no_resolve store_ab (js "x") 1 0 0)
             reachable_store_ab).
    vm_compute. split; discriminate.
  - apply (proj2 (edits_are_not_clamped no_resolve store_ab (js "x") 5 0 0)
             reachable_store_ab).
    + discriminate.
    + right. vm_compute. reflexivity.
  - apply (proj2 (edits_are_not_clamped no_resolve store_ab (js "x") 0 1 1)
             reachable_store_ab).
    all: vm_compute; discriminate.
  - apply (proj2 (edits_are_not_clamped no_resolve store_ab (js "x") 0 1 5)
             reachable_store_ab).
    + discriminate.
    + right. right. vm_compute. reflexivity.
Defined.

(** C4 as stated fails: past the end of "ab" nothing is clamped to the end,
    neither call returns. *)
Lemma edits_beyond_the_end_raise :
  Store.content store_ab = js "ab"
  /\ ~ (exists h', Store.insertText (js "x") (Some 5%Z) store_ab = Store.Normal tt h')
  /\ ~ (exists h', Store.deleteText 1 5 store_ab = Store.Normal tt h').
Proof.
  split; [reflexivity|].
  split; intros (h' & H); vm_compute in H; discriminate H.
Qed.

(* ===================================================================== *)
(** * The caret *)
(* ===================================================================== *)

Lemma createRange_element ns name attrs children k :
  0 < k -> View.createRange (Element ns name attrs children) k = scan children 0 k.
Proof. intros H. destruct k; [lia|reflexivity]. Qed.

Lemma text_length_app (l1 l2 : list node) :
  View.text_length (l1 ++ l2) = View.text_length l1 + View.text_length l2.
Proof. unfold View.text_length. now rewrite flat_map_app, length_app. Qed.

Lemma text_length_cons (c : node) (l : list node) :
  View.text_length (c :: l) = List.length (text_of c) + View.text_length l.
Proof. unfold View.text_length. cbn [flat_map]. now rewrite length_app. Qed.

Lemma scan_finds ns name attrs (cs : list node) :
  Forall finds cs ->
  forall (done : list node) (k : nat), 0 < k ->
    (k <= View.text_length cs ->
     exists p o k', scan cs (List.length done) k = (Some (p, o), k')
                    /\ View.text_before (Element ns name attrs (done ++ cs)) p o
                       = Some (View.text_length done + k))
    /\ (View.text_length cs < k -> scan cs (List.length done) k = (None, k - View.text_length cs)).
Proof.
  induction 1 as [|c cs Hc _ IH]; intros done k Hk.
  - split; [cbn; lia|]. intros _. cbn. f_equal. lia.
  - rewrite text_length_cons.
    destruct (Hc k Hk) as [Hin Hout].
    destruct (le_lt_dec k (List.length (text_of c))) as [Hle|Hlt].
    + split; [intros _|lia].
      destruct (Hin Hle) as (p & o & k' & E & Hb).
      exists (List.length done :: p), o, k'. cbn [scan]. rewrite E. split; [reflexivity|].
      cbn [View.text_before].
      rewrite nth_error_app2, Nat.sub_diag by lia. cbn [nth_error]. rewrite Hb.
      now rewrite firstn_app, Nat.sub_diag, firstn_all, app_nil_r.
    + specialize (Hout Hlt).
      assert (Hk' : 0 < k - List.length (text_of c)) by lia.
      destruct (IH (done ++ [c]) _ Hk') as [IHin IHout].
      rewrite length_app, Nat.add_1_r in IHin, IHout.
      rewrite <- app_assoc in IHin. cbn [app] in IHin.
      rewrite text_length_app, text_length_cons in IHin.
      change (View.text_length []) with 0 in IHin.
      split; intros Hcmp; cbn [scan]; rewrite Hout.
      * destruct IHin as (p & o & k' & E & Hb); [lia|].
        exists p, o, k'. split; [exact E|]. rewrite Hb. f_equal. lia.
      * rewrite IHout by lia. f_equal. lia.
Qed.

Lemma createRange_finds (n : node) : finds n.
Proof.
  induction n as [ns name attrs children IH|data|data] using node_rect'; intros k Hk.
  - rewrite createRange_element by assumption.
    destruct (scan_finds ns name attrs children IH [] k Hk) as [Hin Hout].
    cbn [app List.length View.text_length flat_map Nat.add] in Hin.
    exact (conj Hin Hout).
  - destruct k as [|k]; [lia|]. cbn [View.createRange text_of Nat.eqb].
    destruct (Nat.leb_spec (S k) (List.length data)) as [Hle|Hlt]; split; try lia.
    + intros _. exists [], (S k), (S k). split; [reflexivity|].
      cbn [View.text_before]. apply Nat.leb_le in Hle. now rewrite Hle.
    + reflexivity.
  - destruct k as [|k]; [lia|]. cbn [View.createRange text_of List.length Nat.eqb].
    split; [lia|]. intros _. reflexivity.
Qed.

(** Restoring at [k] puts the caret where saving reads [k] again. *)
Lemma restore_then_save (v : View.view) (children : list node) (k : nat) :
  View.editorRef v = Some children -> k <= View.text_length children ->
  View.saveCursorPosition (View.restoreCursorPosition k v) = Some k.
Proof.
  intros Hed Hk. unfold View.restoreCursorPosition. rewrite Hed.
  destruct k as [|k].
  - cbn. rewrite Hed. reflexivity.
  - destruct (createRange_finds (View.region children) (S k)) as [Hin _]; [lia|].
    destruct Hin as (p & o & k' & E & Hb); [exact Hk|].
    rewrite E. cbn [fst]. unfold View.saveCursorPosition, View.set_selection.
    cbn [View.selection View.editorRef]. now rewrite Hed.
Qed.

Lemma text_length_firstn (i : nat) (l : list node) :
  View.text_length (firstn i l) <= View.text_length l.
Proof.
  rewrite <- (firstn_skipn i l) at 2. rewrite text_length_app. lia.
Qed.

Lemma text_before_le (p : list nat) :
  forall (n : node) (o k : nat),
    View.text_before n p o = Some k -> k <= List.length (text_of n).
Proof.
  induction p as [|i p IH]; intros n o k; cbn [View.text_before].
  - destruct n as [ns name attrs children|data|data]; cbn [text_of].
    + destruct (o <=? List.length children); [|discriminate].
      intros [= <-]. apply text_length_firstn.
    + destruct (Nat.leb_spec o (List.length data)); [|discriminate]. intros [= <-]. lia.
    + destruct (o <=? List.length data); [|discriminate]. intros [= <-]. lia.
  - destruct n as [ns name attrs children|data|data]; try discriminate.
    destruct (nth_error children i) as [c|] eqn:E; [|discriminate].
    destruct (View.text_before c p o) as [k'|] eqn:Hb; [|discriminate].
    intros [= <-]. apply IH in Hb.
    apply nth_error_split in E as (l1 & l2 & -> & <-).
    cbn [text_of]. change (List.length (flat_map text_of (l1 ++ c :: l2)))
      with (View.text_length (l1 ++ c :: l2)).
    rewrite firstn_app, Nat.sub_diag, firstn_all, app_nil_r.
    rewrite text_length_app, text_length_cons. lia.
Qed.

(** C7, as the code has it: the caret is saved as a count of characters from
    the start of the region and restored at the same count in the new
    content.  Text inserted after the caret leaves it at offset [k]; text
    inserted before the caret leaves it at offset [k] as well: the restored
    caret is not moved by the length of the insertion. *)
Theorem caret_keeps_its_offset :
  forall (parseFragment : jsstring -> list node) (v : View.view) (content : jsstring)
         (children : list node) (k p : nat) (inserted : jsstring),
    View.editorRef v = Some children ->
    View.isUpdatingRef v = false ->
    View.useVirtualization v = false ->
    View.saveCursorPosition v = Some k ->
    innerHTML children <> content ->
    flat_map text_of (parseFragment content)
    = firstn p (flat_map text_of children) ++ inserted ++ skipn p (flat_map text_of children) ->
    View.saveCursorPosition (View.sync_content parseFragment content v) = Some k.
Proof.
  intros parseFragment v content children k p inserted Hed Hup Hvirt Hsave Hdiff Htext.
  unfold View.sync_content. rewrite Hed, Hup, Hvirt. cbn [orb].
  apply jsstring_eqb_neq in Hdiff. rewrite Hdiff. cbn [negb]. rewrite Hsave.
  apply (restore_then_save _ (parseFragment content)); [reflexivity|].
  unfold View.text_length. rewrite Htext, !length_app.
  assert (Hk : k <= List.length (flat_map text_of children)).
  { unfold View.saveCursorPosition in Hsave. rewrite Hed in Hsave.
    destruct (View.selection v) as [[path o]|]; [|discriminate].
    apply text_before_le in Hsave. cbn [View.region text_of] in Hsave. exact Hsave. }
  rewrite <- (firstn_skipn p (flat_map text_of children)), length_app in Hk. lia.
Qed.

Lemma caret_keeps_its_offset_witness :
  View.saveCursorPosition
    (View.sync_content parse_aXYbcdef (js "<p>aXYbcdef</p>") view_abcdef) = Some 3.
Proof.
  apply (caret_keeps_its_offset parse_aXYbcdef view_abcdef (js "<p>aXYbcdef</p>")
           [Element HTML (js "p") [] [Text (js "abcdef")]] 3 1 (js "XY")).
  - reflexivity.
  - reflexivity.
  - reflexivity.
  - reflexivity.
  - vm_compute. discriminate.
  - reflexivity.
Defined.

(** C7 as stated fails in its second half: "XY" goes in at offset 1, before
    the caret at offset 3, and the caret is restored at offset 3, between
    "aXY" and "bcdef", not at offset 5. *)
Lemma caret_is_not_shifted :
  View.saveCursorPosition view_abcdef = Some 3
  /\ innerHTML (parse_aXYbcdef (js "<p>aXYbcdef</p>")) = js "<p>aXYbcdef</p>"
  /\ View.saveCursorPosition
       (View.sync_content parse_aXYbcdef (js "<p>aXYbcdef</p>") view_abcdef)
     <> Some (3 + List.length (js "XY")).
Proof.
  split; [reflexivity|]. split; [reflexivity|]. vm_compute. discriminate.
Qed.

(* ===================================================================== *)
(** * The suppression flags *)
(* ===================================================================== *)

Lemma deliver_flag_up (n : nat) (h : Store.hook) :
  Store.isInternalUpdateRef h = true -> Store.deliver n h = Store.Normal tt h.
Proof.
  intros Hf. induction n as [|n IH]; [reflexivity|].
  cbn [Store.deliver]. unfold Store.bind, Store.subscriber.
  destruct (Store.loroDocRef h); rewrite ?Hf; exact IH.
Qed.

(** [updateContent] always returns, and with the internal flag down when
    the store is mounted. *)
Lemma updateContent_returns (x : jsstring) (h : Store.hook) :
  exists h', Store.updateContent x h = Store.Normal tt h'
             /\ Store.isInternalUpdateRef h'
                = match Store.loroDocRef h with
                  | Some _ => false
                  | None => Store.isInternalUpdateRef h
                  end.
Proof.
  destruct h as [[d|] c f]; [|eexists; split; reflexivity].
  unfold Store.updateContent. cbn [Store.loroDocRef].
  unfold Store.bind at 1. cbn [Store.set_isInternalUpdate Store.loroDocRef Store.content].
  unfold Store.bind at 1. cbn [Store.text_length Store.loroDocRef].
  (* the deletion of the whole text *)
  assert (Hdel : exists d1,
             Store.when (0 <? Loro.length d)%Z (Store.call (Loro.delete 0 (Loro.length d)))
               {| Store.loroDocRef := Some d; Store.content := c; Store.isInternalUpdateRef := true |}
             = Store.Normal tt
                 {| Store.loroDocRef := Some d1; Store.content := c;
                    Store.isInternalUpdateRef := true |}).
  { destruct (Loro.text d) as [|a t] eqn:Et.
    - exists d. unfold Loro.length. rewrite Et. reflexivity.
    - unfold Store.when, Loro.length at 1.
      rewrite length_of_nat_pos by (rewrite Et; discriminate).
      unfold Store.call. cbn [Store.loroDocRef].
      rewrite delete_all by (rewrite Et; discriminate).
      cbn [Loro.events]. rewrite Nat.sub_diag. eexists. reflexivity. }
  destruct Hdel as (d1 & Hdel). unfold Store.bind at 1. rewrite Hdel.
  (* the insertion of the new content *)
  assert (Hins : exists d2,
             Store.when (truthy x) (Store.call (Loro.insert 0 x))
               {| Store.loroDocRef := Some d1; Store.content := c; Store.isInternalUpdateRef := true |}
             = Store.Normal tt
                 {| Store.loroDocRef := Some d2; Store.content := c;
                    Store.isInternalUpdateRef := true |}).
  { destruct x as [|b x].
    - exists d1. reflexivity.
    - unfold Store.when. cbn [truthy]. unfold Store.call. cbn [Store.loroDocRef].
      rewrite insert_front by discriminate.
      cbn [Loro.events]. rewrite Nat.sub_diag. eexists. reflexivity. }
  destruct Hins as (d2 & Hins). unfold Store.bind at 1. rewrite Hins.
  unfold Store.bind at 1. unfold Store.call. cbn [Store.loroDocRef].
  rewrite deliver_flag_up by reflexivity.
  eexists. split; reflexivity.
Qed.

Lemma sync_content_isUpdatingRef parseFragment (content : jsstring) (v : View.view) :
  View.isUpdatingRef (View.sync_content parseFragment content v) = View.isUpdatingRef v.
Proof.
  unfold View.sync_content.
  destruct (View.editorRef v) as [children|]; [|reflexivity].
  destruct (View.isUpdatingRef v || View.useVirtualization v); [reflexivity|].
  destruct (negb _); [|reflexivity].
  destruct (View.saveCursorPosition v) as [k|]; [|reflexivity].
  unfold View.restoreCursorPosition. cbn [View.set_innerHTML View.editorRef].
  destruct (fst _); reflexivity.
Qed.

Section Flags.

Variable onContentChange : option (jsstring -> bool).
Variable parseFragment : jsstring -> list node.

(** The controlled editor's callback, if there is one, returns. *)
Hypothesis callback_returns :
  forall callback html, onContentChange = Some callback -> callback html = true.

Lemma checkpoint_idle (e : Reconciler.editor) :
  Reconciler.microtasks e = [] -> Reconciler.checkpoint e = e.
Proof. intros H. unfold Reconciler.checkpoint. rewrite H. destruct e. cbn in *. now subst. Qed.

Lemma handleInput_guarded (e : Reconciler.editor) :
  guarded e -> guarded (Reconciler.handleInput onContentChange e).
Proof.
  intros (Hm & Hs & Ht). unfold Reconciler.handleInput.
  destruct (View.editorRef (Reconciler.view e)) as [children|]; [|now repeat split].
  destruct onContentChange as [callback|] eqn:Ecb.
  - rewrite (callback_returns callback _ eq_refl).
    repeat split; cbn; auto. intros _. apply in_or_app. right. now left.
  - destruct (updateContent_returns (or_string (innerHTML children) [])
                (Reconciler.store (Reconciler.set_updating true e))) as (h' & -> & Hf).
    repeat split; cbn; auto.
    + rewrite Hf. cbn. now destruct (Store.loroDocRef (Reconciler.store e)).
    + intros _. apply in_or_app. right. now left.
Qed.

Lemma typed_guarded children (e : Reconciler.editor) :
  guarded e -> guarded (Reconciler.typed children e).
Proof.
  intros H. unfold Reconciler.typed.
  destruct (View.editorRef (Reconciler.view e)); exact H.
Qed.

Lemma run_timer_guarded (e : Reconciler.editor) :
  guarded e -> Reconciler.timers e <> [] ->
  guarded (Reconciler.run_timer e)
  /\ View.isUpdatingRef (Reconciler.view (Reconciler.run_timer e)) = false
  /\ S (List.length (Reconciler.timers (Reconciler.run_timer e)))
     = List.length (Reconciler.timers e).
Proof.
  intros (Hm & Hs & Ht) Hne. unfold Reconciler.run_timer.
  destruct (Reconciler.timers e) as [|[] ts]; [congruence|].
  cbn. repeat split; auto. discriminate.
Qed.

Lemma turn_guarded (e e' : Reconciler.editor) :
  guarded e -> Reconciler.turn onContentChange parseFragment e e' -> guarded e'.
Proof.
  intros He Ht. destruct Ht as [children e|content e|e Hne].
  - pose proof (handleInput_guarded _ (typed_guarded children e He)) as H.
    rewrite checkpoint_idle; [exact H|apply H].
  - rewrite checkpoint_idle by apply He.
    destruct He as (Hm & Hs & Ht). repeat split; auto.
    cbn. now rewrite sync_content_isUpdatingRef.
  - destruct (run_timer_guarded e He Hne) as (H & _).
    rewrite checkpoint_idle; [exact H|apply H].
Qed.

Lemma reachable_guarded (e : Reconciler.editor) :
  Reconciler.reachable onContentChange parseFragment Reconciler.mounted e -> guarded e.
Proof.
  induction 1 as [|e e' _ IH Ht].
  - repeat split. discriminate.
  - exact (turn_guarded e e' IH Ht).
Qed.

Lemma drain_clears (n : nat) :
  forall e, guarded e -> List.length (Reconciler.timers e) = n ->
    View.isUpdatingRef (Reconciler.view (Reconciler.drain n e)) = false
    /\ Reconciler.timers (Reconciler.drain n e) = [].
Proof.
  induction n as [|n IH]; intros e He Hn; cbn [Reconciler.drain].
  - destruct (Reconciler.timers e) eqn:E; [|discriminate]. split; [|reflexivity].
    destruct He as (_ & _ & Ht). rewrite E in Ht.
    destruct (View.isUpdatingRef (Reconciler.view e)); [destruct (Ht eq_refl)|reflexivity].
  - assert (Hne : Reconciler.timers e <> []) by (destruct (Reconciler.timers e); [discriminate|congruence]).
    destruct (run_timer_guarded e He Hne) as (H & _ & Hlen).
    rewrite checkpoint_idle by apply H.
    apply IH; [exact H|lia].
Qed.

End Flags.

(** C8, as the code has it: [isInternalUpdateRef] is raised and lowered
    inside one call of [updateContent], so it is down whenever a task ends.
    [isUpdatingRef] is raised by [handleInput] and lowered by the zero-delay
    timer the same call queues: when the store write returns, a raised flag
    always has its clearing timer pending, and once the pending timers have
    run the flag is down and the queue empty.  *)
Theorem suppression_flag_is_cleared_by_its_timer :
  forall (onContentChange : option (jsstring -> bool))
         (parseFragment : jsstring -> list node),
    (forall callback html, onContentChange = Some callback -> callback html = true) ->
    forall e : Reconciler.editor,
      Reconciler.reachable onContentChange parseFragment Reconciler.mounted e ->
      Store.isInternalUpdateRef (Reconciler.store e) = false
      /\ (View.isUpdatingRef (Reconciler.view e) = true ->
          In Reconciler.ClearUpdating (Reconciler.timers e))
      /\ View.isUpdatingRef
           (Reconciler.view (Reconciler.drain (List.length (Reconciler.timers e)) e)) = false
      /\ Reconciler.timers (Reconciler.drain (List.length (Reconciler.timers e)) e) = [].
Proof.
  intros onContentChange parseFragment Hcb e Hr.
  pose proof (reachable_guarded onContentChange parseFragment Hcb e Hr) as He.
  destruct (drain_clears (List.length (Reconciler.timers e)) e He eq_refl)
    as (H1 & H2).
  destruct He as (_ & Hs & Ht). auto.
Qed.

Lemma suppression_flag_is_cleared_by_its_timer_witness :
  In Reconciler.ClearUpdating (Reconciler.timers after_keystroke)
  /\ View.isUpdatingRef
       (Reconciler.view
          (Reconciler.drain (List.length (Reconciler.timers after_keystroke)) after_keystroke))
     = false.
Proof.
  assert (Hr : Reconciler.reachable None (fun _ => []) Reconciler.mounted after_keystroke).
  { apply (Reconciler.reach_turn None (fun _ => []) Reconciler.mounted Reconciler.mounted).
    - apply Reconciler.reach_start.
    - apply (Reconciler.turn_input None (fun _ => []) [Text (js "a")] Reconciler.mounted). }
  assert (Hcb : forall (callback : jsstring -> bool) (html : jsstring),
             None = Some callback -> callback html = true)
    by (intros callback html E; discriminate E).
  destruct (suppression_flag_is_cleared_by_its_timer None (fun _ => []) Hcb
              after_keystroke Hr)
    as (_ & H1 & H2 & _).
  split; [apply H1; reflexivity|exact H2].
Defined.

(** C8 as stated fails on its timing: when the input task and its microtask
    checkpoint are over the flag is still up; it goes down in a later task,
    the timer's. *)
Lemma suppression_flag_outlives_the_tick :
  View.isUpdatingRef (Reconciler.view after_keystroke) = true
  /\ Reconciler.microtasks after_keystroke = []
  /\ Reconciler.timers after_keystroke = [Reconciler.ClearUpdating]
  /\ View.isUpdatingRef (Reconciler.view (Reconciler.run_timer after_keystroke)) = false.
Proof. repeat split. Qed.

(* ===================================================================== *)
(** * The window over the block list *)
(* ===================================================================== *)

Lemma fragments_block_elements (nodes : list node) :
  Forall (fun n => block_element n = true) nodes ->
  List.length (flat_map fragments nodes) = List.length nodes.
Proof.
  induction 1 as [|n l Hn _ IH]; [reflexivity|].
  cbn [flat_map]. rewrite length_app, IH.
  destruct n as [ns name attrs children|data|data]; try discriminate.
  cbn [block_element] in Hn. cbn [fragments]. now rewrite Hn.
Qed.

(** A body of block elements gives one block per element. *)
Lemma blocks_of_block_elements parseFromString (content : jsstring) :
  let nodes := body_childNodes (parseFromString content) in
  content <> [] -> nodes <> [] ->
  Forall (fun n => block_element n = true) nodes ->
  List.length (blocks_memo parseFromString true content) = List.length nodes.
Proof.
  intros nodes Hc Hne Hall. unfold blocks_memo.
  apply truthy_true in Hc. rewrite Hc. cbn [negb orb].
  rewrite parseContentIntoBlocks_cases. fold nodes.
  pose proof (emitted_contents nodes) as E.
  apply (f_equal (@List.length jsstring)) in E.
  rewrite length_map, (fragments_block_elements nodes Hall) in E.
  destruct (emitted nodes); [|exact E].
  destruct nodes; [congruence|discriminate].
Qed.

(** With 10000 unmeasured rows of 50 px and a viewport of 600 px: at the
    top the rows 0 to 16 are in the window, and 1000 px further down the
    rows 15 to 36. *)
Lemma window_of_ten_thousand :
  map Window.index (Window.getVirtualItems ten_thousand (fun _ => None) 0 600) = seq 0 17
  /\ map Window.index (Window.getVirtualItems ten_thousand (fun _ => None) 1000 600)
     = seq 15 22.
Proof. split; vm_compute; reflexivity. Qed.

Lemma rendered_length (blocks : list EditorBlock) (items : list Window.virtualItem) :
  Forall (fun it => Window.index it < List.length blocks) items ->
  List.length
    (flat_map (fun it => match nth_error blocks (Window.index it) with
                         | Some b => [b] | None => [] end) items)
  = List.length items.
Proof.
  induction 1 as [|it l Hit _ IH]; [reflexivity|].
  cbn [flat_map]. rewrite length_app, IH.
  apply nth_error_Some in Hit.
  destruct (nth_error blocks (Window.index it)); [reflexivity|congruence].
Qed.

Lemma sync_content_fills_the_region (parseFragment : jsstring -> list node)
    (content : jsstring) (v : View.view) (children : list node) :
  View.editorRef v = Some children ->
  View.isUpdatingRef v = false ->
  View.useVirtualization v = false ->
  innerHTML children <> content ->
  View.editorRef (View.sync_content parseFragment content v) = Some (parseFragment content).
Proof.
  intros He Hu Hv Hne. unfold View.sync_content. rewrite He, Hu, Hv. cbn [orb].
  apply jsstring_eqb_neq in Hne. rewrite Hne. cbn [negb].
  destruct (View.saveCursorPosition v) as [k|]; [|reflexivity].
  unfold View.restoreCursorPosition. cbn [View.set_innerHTML View.editorRef].
  destruct (fst _); reflexivity.
Qed.


Lemma paragraphs_content : innerHTML paragraphs <> [].
Proof.
  unfold paragraphs, innerHTML.
  change 10000 with (S 9999). cbn [repeat flat_map]. discriminate.
Qed.

Lemma paragraphs_blocks : Forall (fun n => block_element n = true) paragraphs.
Proof. apply Forall_forall. intros n Hn. apply repeat_spec in Hn. now subst n. Qed.



(* ===================================================================== *)
(** * Further properties of the document store *)
(* ===================================================================== *)

(** X1: whatever calls were made on a mounted store with strings of code
    units below 256 (well-formed strings, which the document stores as they
    are), the React state [content] equals the replicated text, the
    document is there, and the internal-update flag is down. *)
Theorem content_tracks_document :
  forall (resolve : Loro.snapshot -> Loro.snapshot -> jsstring) (h : Store.hook),
    Store.reachable resolve h ->
    Store.content h = Store.doc_text h
    /\ Store.loroDocRef h <> None
    /\ Store.isInternalUpdateRef h = false.
Proof.
  intros resolve h Hr.
  apply reachable_settled, settled_at_rest in Hr as (d & -> & _).
  repeat split. discriminate.
Qed.

Lemma content_tracks_document_witness :
  Store.content store_ab = Store.doc_text store_ab.
Proof.
  apply (content_tracks_document no_resolve store_ab reachable_store_ab).
Defined.

(** X2: [updateContent] never raises, whatever the state of the hook; on a
    store that is not mounted it changes nothing, and on a mounted store it
    leaves the content and, the argument being a string of code units below
    256 (a well-formed string, which the document stores as it is), the
    replicated text equal to its argument, with at most one more
    notification. *)
Theorem updateContent_overwrites :
  forall (resolve : Loro.snapshot -> Loro.snapshot -> jsstring)
         (h : Store.hook) (x : jsstring),
    (exists h', Store.updateContent x h = Store.Normal tt h')
    /\ (Store.loroDocRef h = None -> Store.updateContent x h = Store.Normal tt h)
    /\ (Store.reachable resolve h ->
        let h' := Store.after (Store.updateContent x h) in
        Store.content h' = x
        /\ Store.doc_text h' = x
        /\ Store.notifications h <= Store.notifications h' <= S (Store.notifications h)).
Proof.
  intros resolve h x. split; [|split].
  - destruct (updateContent_returns x h) as (h' & H & _). now exists h'.
  - intros Hd. unfold Store.updateContent. now rewrite Hd.
  - intros Hr.
    apply reachable_settled, settled_at_rest in Hr as (d & -> & Hp & _).
    rewrite updateContent_at_rest by assumption. cbn [Store.after].
    unfold Store.doc_text, Store.notifications, at_rest.
    cbn [Store.content Store.loroDocRef Loro.toString].
    rewrite text_updated. split; [reflexivity|]. split; [apply text_updated|].
    unfold updated; destruct (Loro.text d); destruct x; cbn; lia.
Qed.

Lemma updateContent_overwrites_witness :
  Store.content (Store.after (Store.updateContent (js "xyz") store_ab)) = js "xyz".
Proof.
  apply (proj2 (proj2 (updateContent_overwrites no_resolve store_ab (js "xyz")))
           reachable_store_ab).
Defined.

Lemma firstn_skipn_splice (A : Type) (p : nat) (c t : list A) :
  p <= List.length c ->
  firstn p (firstn p c ++ t ++ skipn p c)
  ++ skipn (p + List.length t) (firstn p c ++ t ++ skipn p c) = c.
Proof.
  intros Hp.
  assert (Hl : List.length (firstn p c) = p) by (apply firstn_length_le; exact Hp).
  rewrite firstn_app, Hl, Nat.sub_diag, firstn_O, app_nil_r.
  rewrite <- Hl at 1. rewrite firstn_all.
  rewrite skipn_app, Hl.
  replace (p + List.length t - p) with (List.length t) by lia.
  rewrite (skipn_all2 (firstn p c)) by lia.
  rewrite skipn_app, skipn_all, Nat.sub_diag. cbn [app skipn].
  apply firstn_skipn.
Qed.

(** X3: inserting a text at an offset inside the content and then deleting
    as many characters at the same offset gives the content back. *)
Theorem insertText_then_deleteText :
  forall (resolve : Loro.snapshot -> Loro.snapshot -> jsstring)
         (h : Store.hook) (t : jsstring) (pos : Z),
    Store.reachable resolve h ->
    (0 <= pos <= Z.of_nat (List.length (Store.content h)))%Z ->
    exists h1 h2,
      Store.insertText t (Some pos) h = Store.Normal tt h1
      /\ Store.deleteText pos (Z.of_nat (List.length t)) h1 = Store.Normal tt h2
      /\ Store.content h2 = Store.content h
      /\ Store.doc_text h2 = Store.doc_text h.
Proof.
  intros resolve h t pos Hr Hpos.
  apply reachable_settled, settled_at_rest in Hr as (d & -> & Hp & _).
  cbn [Store.content at_rest] in Hpos.
  rewrite insertText_at_rest by assumption.
  destruct (insert_in_range pos t d Hpos) as (d1 & -> & Ht1).
  exists (at_rest (Loro.commit d1)).
  rewrite deleteText_at_rest by apply commit_pending.
  assert (Hlen : List.length (Loro.text (Loro.commit d1))
                 = List.length (Loro.text d) + List.length t).
  { rewrite commit_text, Ht1, !length_app.
    pose proof (firstn_skipn (Z.to_nat pos) (Loro.text d)) as E.
    apply (f_equal (@List.length ascii)) in E. rewrite length_app in E. lia. }
  destruct (delete_in_range pos (Z.of_nat (List.length t)) (Loro.commit d1))
    as (d2 & -> & Ht2); [lia|lia|unfold Loro.length; lia|].
  exists (at_rest (Loro.commit d2)).
  assert (E : Loro.text (Loro.commit d2) = Loro.text d).
  { rewrite commit_text, Ht2, commit_text, Ht1, Nat2Z.id.
    apply firstn_skipn_splice. lia. }
  repeat split; cbn [Store.content Store.doc_text at_rest Store.loroDocRef Loro.toString];
    exact E.
Qed.

Lemma insertText_then_deleteText_witness :
  exists h1 h2,
    Store.insertText (js "xy") (Some 1%Z) store_ab = Store.Normal tt h1
    /\ Store.deleteText 1 2 h1 = Store.Normal tt h2
    /\ Store.content h2 = js "ab".
Proof.
  destruct (insertText_then_deleteText no_resolve store_ab (js "xy") 1 reachable_store_ab)
    as (h1 & h2 & H1 & H2 & H3 & _).
  - vm_compute. split; discriminate.
  - exists h1, h2. auto.
Defined.

(** X4: a call that raises leaves the store as it was before the call, and
    a call never sends more than one notification nor takes one back. *)
Theorem a_failed_call_changes_nothing :
  forall (resolve : Loro.snapshot -> Loro.snapshot -> jsstring)
         (h : Store.hook) (r : Store.request),
    Store.reachable resolve h ->
    (forall e h', Store.perform resolve r h = Store.Abrupt e h' -> h' = h)
    /\ Store.notifications h
       <= Store.notifications (Store.after (Store.perform resolve r h))
       <= S (Store.notifications h).
Proof.
  intros resolve h r Hr.
  apply reachable_settled, settled_at_rest in Hr as (d & -> & Hp & _).
  assert (Hcommit : forall d', d' = d \/ (Loro.events d' = Loro.events d /\ Loro.pending d' <> []
                                          /\ Loro.oplog d' = Loro.oplog d) ->
                    Loro.events d <= Loro.events (Loro.commit d') <= S (Loro.events d)).
  { intros d' [->|(He & Hne & _)].
    - rewrite (commit_at_rest _ Hp). lia.
    - unfold Loro.commit. destruct (Loro.pending d'); [congruence|]. cbn. lia. }
  destruct r as [x|t position|start len|bytes]; cbn [Store.perform].
  - rewrite updateContent_at_rest by assumption. split; [discriminate|].
    cbn. unfold updated. destruct (Loro.text d); destruct x; cbn; lia.
  - rewrite insertText_at_rest by assumption.
    destruct (Loro.insert _ t d) as [e|d'] eqn:E.
    + split; [now intros e0 h' [= _ <-]|cbn; lia].
    + split; [discriminate|]. cbn. apply Hcommit. eapply insert_cases; eassumption.
  - rewrite deleteText_at_rest by assumption.
    destruct (Loro.delete start len d) as [e|d'] eqn:E.
    + split; [now intros e0 h' [= _ <-]|cbn; lia].
    + split; [discriminate|]. cbn. apply Hcommit. eapply delete_cases; eassumption.
  - rewrite loadSnapshot_at_rest by assumption.
    destruct (Loro.import resolve bytes d) as [e|d'] eqn:E.
    + split; [now intros e0 h' [= _ <-]|cbn; lia].
    + split; [discriminate|]. cbn.
      unfold Loro.import in E. destruct (Loro.decode bytes); [|discriminate].
      rewrite (commit_at_rest _ Hp) in E.
      destruct (Loro.is_prefix _ _); [injection E as <-; lia|].
      destruct (Loro.is_prefix _ _); injection E as <-; cbn; lia.
Qed.

Lemma a_failed_call_changes_nothing_witness :
  Store.notifications store_ab
  <= Store.notifications
       (Store.after (Store.perform no_resolve (Store.InsertText (js "x") (Some 5%Z)) store_ab))
  <= S (Store.notifications store_ab).
Proof.
  apply (proj2 (a_failed_call_changes_nothing no_resolve store_ab
                  (Store.InsertText (js "x") (Some 5%Z)) reachable_store_ab)).
Defined.

(* ===================================================================== *)
(** * Further properties of the segmenter *)
(* ===================================================================== *)

Lemma includes_In (l : list jsstring) (s : jsstring) : includes l s = true <-> In s l.
Proof.
  unfold includes. rewrite existsb_exists. split.
  - intros (x & Hx & E).
    unfold jsstring_eqb in E. destruct (list_eq_dec ascii_dec s x); [now subst|discriminate].
  - intros H. exists s. split; [exact H|].
    unfold jsstring_eqb. now destruct (list_eq_dec ascii_dec s s).
Qed.

Lemma outerHTML_opens ns (name : jsstring) attrs children :
  exists c rest,
    outerHTML (Element ns name attrs children) = js "<" ++ name ++ c :: rest
    /\ (c = ">"%char \/ c = " "%char).
Proof.
  unfold outerHTML. cbn [serialize].
  destruct attrs as [|a attrs]; cbn [flat_map].
  - eexists ">"%char, _. split; [reflexivity|now left].
  - unfold serialize_attribute at 1. eexists " "%char, _. split; [|now right].
    cbn [js list_ascii_of_string app]. rewrite <- !app_assoc. reflexivity.
Qed.

Lemma lower_upper_char (c : ascii) :
  ascii_capital c = false ->
  (charCode (lower_char (upper_ascii c)) <? 128) = true ->
  lower_char (upper_ascii c) = c.
Proof.
  destruct c as [[] [] [] [] [] [] [] []]; vm_compute; congruence.
Qed.

Lemma lower_upper (name : jsstring) :
  existsb ascii_capital name = false ->
  forallb (fun c => charCode c <? 128) (toLowerCase (map upper_ascii name)) = true ->
  toLowerCase (map upper_ascii name) = name.
Proof.
  induction name as [|c name IH]; [reflexivity|].
  cbn [existsb map toLowerCase forallb]. fold (toLowerCase (map upper_ascii name)).
  intros Hc Ha. apply orb_false_iff in Hc as [Hc Hn]. apply andb_true_iff in Ha as [Ha Hs].
  now rewrite (lower_upper_char c Hc Ha), (IH Hn Hs).
Qed.

Lemma block_tags_ascii :
  Forall (fun t => forallb (fun c => charCode c <? 128) t = true) block_tags.
Proof. repeat constructor. Qed.

(** The local name of a parsed element whose tag name is among [l]. *)
Lemma local_name_is_tag (l : list jsstring) ns (name : jsstring) :
  (forall t, In t l -> In t block_tags) ->
  match ns with
  | HTML => negb (existsb ascii_capital name)
  | _ => negb (includes block_tags (toLowerCase name))
  end = true ->
  includes l (toLowerCase (tagName ns name)) = true ->
  In name l.
Proof.
  intros Hl Hp Hi. apply includes_In in Hi.
  assert (Hb : In (toLowerCase (tagName ns name)) block_tags) by now apply Hl.
  destruct ns; cbn [tagName] in *.
  - apply negb_true_iff in Hp.
    pose proof (proj1 (Forall_forall _ _) block_tags_ascii _ Hb) as Ha.
    now rewrite (lower_upper name Hp Ha) in Hi.
  - apply negb_true_iff in Hp. apply includes_In in Hb. congruence.
  - apply negb_true_iff in Hp. apply includes_In in Hb. congruence.
Qed.

Lemma push_opens c t st :
  Forall opens (fst st) -> opens {| id := js "block-" ++ Number_toString (snd st);
                                    content := c; type := t |} ->
  Forall opens (fst (push c t st)).
Proof.
  intros Hst Hb. unfold push. cbn [fst]. apply Forall_app. split; [exact Hst|].
  constructor; [exact Hb|constructor].
Qed.

Lemma jsstring_eqb_includes (s t : jsstring) : jsstring_eqb s t = includes [t] s.
Proof. unfold includes. cbn [existsb]. now rewrite orb_false_r. Qed.

Lemma processNode_opens n :
  parser_made n = true ->
  forall st, Forall opens (fst st) -> Forall opens (fst (processNode n st)).
Proof.
  induction n as [ns name attrs children IH|data|data] using node_rect'; intros Hn st Hst.
  - cbn [parser_made] in Hn. apply andb_true_iff in Hn as [Hname Hchildren].
    cbn [processNode].
    destruct (outerHTML_opens ns name attrs children) as (c & rest & Eo & Hc).
    assert (Hpush : forall (t : block_type) (l : list jsstring),
               l = opening_tags t ->
               (forall x, In x l -> In x block_tags) ->
               includes l (toLowerCase (tagName ns name)) = true ->
               forall content',
                 content' = outerHTML (Element ns name attrs children) ->
                 Forall opens (fst (push content' t st))).
    { intros t l -> Hl Hi content' ->. apply push_opens; [exact Hst|].
      exists name, c, rest. cbn [content type].
      split; [exact Eo|]. split; [exact Hc|].
      exact (local_name_is_tag (opening_tags t) ns name Hl Hname Hi). }
    assert (Hsub : forall t x, In x (opening_tags t) -> In x block_tags).
    { intros t x Hx. destruct t; cbn in Hx; cbn; intuition. }
    destruct (includes (map js ["h1"; "h2"; "h3"; "h4"; "h5"; "h6"]%string) _) eqn:E1.
    { now apply (Hpush heading _ eq_refl (Hsub heading) E1). }
    destruct (includes (map js ["ul"; "ol"]%string) _) eqn:E2.
    { now apply (Hpush list_ _ eq_refl (Hsub list_) E2). }
    destruct (jsstring_eqb _ (js "pre")) eqn:E3.
    { rewrite jsstring_eqb_includes in E3.
      now apply (Hpush code _ eq_refl (Hsub code) E3). }
    destruct (jsstring_eqb _ (js "blockquote")) eqn:E4.
    { rewrite jsstring_eqb_includes in E4.
      now apply (Hpush blockquote _ eq_refl (Hsub blockquote) E4). }
    destruct (jsstring_eqb _ (js "p") || jsstring_eqb _ (js "div")) eqn:E5.
    { apply (Hpush text _ eq_refl (Hsub text)).
      - unfold includes. cbn [opening_tags map existsb]. now rewrite orb_false_r.
      - unfold or_string. destruct (outerHTML_opens ns name attrs children) as (c' & r' & -> & _).
        reflexivity. }
    clear Eo Hpush. revert st Hst.
    induction IH as [|n l Hn _ IHl]; intros st Hst; cbn [fold_left]; [exact Hst|].
    cbn [forallb] in Hchildren. apply andb_true_iff in Hchildren as [Hk Hks].
    apply IHl; [exact Hks|]. now apply Hn.
  - cbn [processNode]. destruct (truthy (trim data)); [|exact Hst].
    apply push_opens; [exact Hst|].
    exists (js "p"), ">"%char, (data ++ js "</p>"). cbn. auto.
  - exact Hst.
Qed.

Lemma emitted_opens (nodes : list node) :
  forallb parser_made nodes = true -> Forall opens (emitted nodes).
Proof.
  unfold emitted. intros Hp.
  assert (H : forall st : pass, Forall opens (fst st) ->
              Forall opens (fst (fold_left (fun st c => processNode c st) nodes st))).
  { induction nodes as [|n l IH]; intros st Hst; cbn [fold_left]; [exact Hst|].
    cbn [forallb] in Hp. apply andb_true_iff in Hp as [Hn Hl].
    apply IH; [exact Hl|]. now apply processNode_opens. }
  apply H. constructor.
Qed.

(** X5: the kind of a block does not contradict its fragment.  For a body
    as the HTML parser makes it (strings being of code units below 256),
    the content of every block the segmenter returns opens with a tag of
    its kind (h1 to h6 for a heading, ul or ol for a list, pre for code,
    blockquote, p or div for text), the tag name being followed by [>] or
    a space.  The kind is decided on the upper-case tag name put in lower
    case, the fragment prints the local name: the two agree because the
    parser leaves no ASCII capital in the local name of an HTML element and
    makes no SVG or MathML element with the name of a block. *)
Theorem block_kind_matches_its_tag :
  forall (parseFromString : jsstring -> document) (html : jsstring) (b : EditorBlock),
    forallb parser_made (body_childNodes (parseFromString html)) = true ->
    In b (parseContentIntoBlocks parseFromString html) ->
    exists (tag : jsstring) (c : ascii) (rest : jsstring),
      content b = js "<" ++ tag ++ c :: rest
      /\ (c = ">"%char \/ c = " "%char)
      /\ In tag (opening_tags (type b)).
Proof.
  intros parseFromString html b Hp Hb.
  rewrite parseContentIntoBlocks_cases in Hb.
  pose proof (emitted_opens (body_childNodes (parseFromString html)) Hp) as Hall.
  destruct (emitted (body_childNodes (parseFromString html))) as [|b0 bs].
  - destruct Hb as [<-|[]]. exists (js "p"), ">"%char, (js "<br/></p>"). cbn. auto.
  - rewrite Forall_forall in Hall. exact (Hall b Hb).
Qed.

Lemma block_kind_matches_its_tag_witness :
  exists (tag : jsstring) (c : ascii) (rest : jsstring),
    js "<h1>a &amp; b</h1>" = js "<" ++ tag ++ c :: rest
    /\ (c = ">"%char \/ c = " "%char)
    /\ In tag (opening_tags heading).
Proof.
  apply (block_kind_matches_its_tag (fun _ => {| body_childNodes := two_blocks |}) []
           {| id := js "block-0"; content := js "<h1>a &amp; b</h1>"; type := heading |}
           eq_refl).
  left. reflexivity.
Defined.

(** X6: the block list of the editor is empty exactly when virtualization is
    off or the content is empty: the placeholder block of the segmenter is
    never produced for the empty content, and any other content gives at
    least one block. *)
Theorem blocks_memo_empty_iff :
  forall (parseFromString : jsstring -> document) (useVirtualization : bool)
         (content : jsstring),
    blocks_memo parseFromString useVirtualization content = []
    <-> (useVirtualization = false \/ content = []).
Proof.
  intros parseFromString v c. unfold blocks_memo. split.
  - destruct v; [|now left]. destruct c as [|a c]; [now right|]. cbn [negb truthy orb].
    rewrite parseContentIntoBlocks_cases. destruct (emitted _); discriminate.
  - intros [->| ->]; [reflexivity|]. now destruct v.
Qed.

(* ===================================================================== *)
(** * Further properties of the caret and of the content effect *)
(* ===================================================================== *)

(** X7: restoring the caret past the end of the text does nothing at all:
    no range is found and the selection stays as it was; restoring at 0
    puts the caret at the very start of the region. *)
Theorem restore_out_of_reach :
  forall (v : View.view) (children : list node) (position : nat),
    View.editorRef v = Some children ->
    (View.text_length children < position -> View.restoreCursorPosition position v = v)
    /\ View.selection (View.restoreCursorPosition 0 v) = Some ([], 0).
Proof.
  intros v children position Hed. split.
  - intros Hlt. unfold View.restoreCursorPosition. rewrite Hed.
    destruct (createRange_finds (View.region children) position) as [_ Hout]; [lia|].
    rewrite Hout by exact Hlt. reflexivity.
  - unfold View.restoreCursorPosition. rewrite Hed. reflexivity.
Qed.

Lemma restore_out_of_reach_witness :
  View.restoreCursorPosition 7 view_abcdef = view_abcdef.
Proof.
  apply (proj1 (restore_out_of_reach view_abcdef
                  [Element HTML (js "p") [] [Text (js "abcdef")]] 7 eq_refl)).
  vm_compute. lia.
Defined.

Lemma scan_lands ns name attrs (cs : list node) :
  Forall (fun n => forall k p o k', 0 < k ->
                     View.createRange n k = (Some (p, o), k') -> in_text n p o) cs ->
  forall (done : list node) (k : nat) p o k', 0 < k ->
    scan cs (List.length done) k = (Some (p, o), k') ->
    in_text (Element ns name attrs (done ++ cs)) p o.
Proof.
  induction 1 as [|c cs Hc _ IH]; intros done k p o k' Hk Hs; [discriminate|].
  cbn [scan] in Hs.
  destruct (View.createRange c k) as [[[p1 o1]|] k1] eqn:E.
  - injection Hs as <- <- <-.
    destruct (Hc k p1 o1 k1 Hk E) as (data & Hn & Ho).
    exists data. split; [|exact Ho]. cbn [node_at].
    now rewrite nth_error_app2, Nat.sub_diag by lia.
  - destruct (createRange_finds c k Hk) as [Hin Hout].
    destruct (le_lt_dec k (List.length (text_of c))) as [Hle|Hlt].
    + destruct (Hin Hle) as (p2 & o2 & k2 & E2 & _). congruence.
    + rewrite (Hout Hlt) in E. injection E as <-.
      specialize (IH (done ++ [c]) (k - List.length (text_of c)) p o k').
      rewrite length_app, Nat.add_1_r, <- app_assoc in IH. apply IH; [lia|exact Hs].
Qed.

Lemma createRange_lands (n : node) :
  forall k p o k', 0 < k -> View.createRange n k = (Some (p, o), k') -> in_text n p o.
Proof.
  induction n as [ns name attrs children IH|data|data] using node_rect'; intros k p o k' Hk E.
  - rewrite createRange_element in E by assumption.
    exact (scan_lands ns name attrs children IH [] k p o k' Hk E).
  - destruct k as [|k]; [lia|]. cbn [View.createRange Nat.eqb] in E.
    destruct (Nat.leb_spec (S k) (List.length data)); [|discriminate].
    injection E as <- <- <-. exists data. split; [reflexivity|lia].
  - destruct k as [|k]; [lia|]. discriminate.
Qed.

(** X8: a caret restored at a positive offset within the text always lands
    inside a text node, after at least one of its characters, never in an
    element or a comment. *)
Theorem restored_caret_is_in_text :
  forall (v : View.view) (children : list node) (position : nat),
    View.editorRef v = Some children ->
    0 < position <= View.text_length children ->
    exists path offset,
      View.selection (View.restoreCursorPosition position v) = Some (path, offset)
      /\ in_text (View.region children) path offset.
Proof.
  intros v children position Hed [Hpos Hle].
  unfold View.restoreCursorPosition. rewrite Hed.
  destruct (createRange_finds (View.region children) position Hpos) as [Hin _].
  destruct (Hin Hle) as (p & o & k' & E & _).
  rewrite E. exists p, o. split; [reflexivity|].
  exact (createRange_lands (View.region children) position p o k' Hpos E).
Qed.

Lemma restored_caret_is_in_text_witness :
  exists path offset,
    View.selection (View.restoreCursorPosition 4 view_abcdef) = Some (path, offset)
    /\ in_text (View.region [Element HTML (js "p") [] [Text (js "abcdef")]]) path offset.
Proof.
  apply (restored_caret_is_in_text view_abcdef [Element HTML (js "p") [] [Text (js "abcdef")]] 4).
  - reflexivity.
  - vm_compute. split; lia.
Defined.

Lemma restoreCursorPosition_editorRef (k : nat) (v : View.view) :
  View.editorRef (View.restoreCursorPosition k v) = View.editorRef v
  /\ View.isUpdatingRef (View.restoreCursorPosition k v) = View.isUpdatingRef v
  /\ View.useVirtualization (View.restoreCursorPosition k v) = View.useVirtualization v.
Proof.
  unfold View.restoreCursorPosition.
  destruct (View.editorRef v) eqn:E; [|auto].
  destruct (fst _); cbn; auto.
Qed.

(** X9: the content effect settles at once: when the parser gives back a
    tree whose markup is the content, running the effect a second time with
    the same content changes neither the region nor the caret. *)
Theorem sync_content_settles :
  forall (parseFragment : jsstring -> list node) (content : jsstring) (v : View.view),
    innerHTML (parseFragment content) = content ->
    View.sync_content parseFragment content (View.sync_content parseFragment content v)
    = View.sync_content parseFragment content v.
Proof.
  intros parseFragment content v Hparse.
  assert (Hdone : forall v', View.editorRef v' = Some (parseFragment content) ->
                             View.sync_content parseFragment content v' = v').
  { intros v' Hv'. unfold View.sync_content. rewrite Hv'.
    destruct (View.isUpdatingRef v' || View.useVirtualization v'); [reflexivity|].
    rewrite Hparse.
    replace (jsstring_eqb content content) with true; [reflexivity|].
    unfold jsstring_eqb. destruct (list_eq_dec ascii_dec content content); congruence. }
  assert (Hcases : View.sync_content parseFragment content v = v
                   \/ View.editorRef (View.sync_content parseFragment content v)
                      = Some (parseFragment content)).
  { unfold View.sync_content.
    destruct (View.editorRef v) as [children|]; [|now left].
    destruct (View.isUpdatingRef v || View.useVirtualization v); [now left|].
    destruct (negb _); [|now left]. right.
    destruct (View.saveCursorPosition v) as [k|]; [|reflexivity].
    now rewrite (proj1 (restoreCursorPosition_editorRef k _)). }
  destruct Hcases as [E|E]; [now rewrite !E|now apply Hdone].
Qed.

Lemma sync_content_settles_witness :
  View.sync_content parse_aXYbcdef (js "<p>aXYbcdef</p>")
    (View.sync_content parse_aXYbcdef (js "<p>aXYbcdef</p>") view_abcdef)
  = View.sync_content parse_aXYbcdef (js "<p>aXYbcdef</p>") view_abcdef.
Proof.
  apply (sync_content_settles parse_aXYbcdef (js "<p>aXYbcdef</p>") view_abcdef).
  reflexivity.
Defined.

Lemma or_string_empty (a : jsstring) : or_string a [] = a.
Proof. now destruct a. Qed.

Lemma sync_content_same_markup parseFragment (v : View.view) (children : list node) :
  View.editorRef v = Some children ->
  View.sync_content parseFragment (innerHTML children) v = v.
Proof.
  intros Hed. unfold View.sync_content. rewrite Hed.
  destruct (View.isUpdatingRef v || View.useVirtualization v); [reflexivity|].
  replace (jsstring_eqb (innerHTML children) (innerHTML children)) with true; [reflexivity|].
  unfold jsstring_eqb. destruct (list_eq_dec ascii_dec _ _); congruence.
Qed.

Lemma run_timer_keeps (e : Reconciler.editor) :
  View.editorRef (Reconciler.view (Reconciler.run_timer e)) = View.editorRef (Reconciler.view e)
  /\ Reconciler.store (Reconciler.run_timer e) = Reconciler.store e.
Proof.
  unfold Reconciler.run_timer. destruct (Reconciler.timers e) as [|[] ts]; cbn; auto.
Qed.

Lemma run_tasks_keeps (l : list Reconciler.task) :
  forall e0 : Reconciler.editor,
    View.editorRef (Reconciler.view (fold_left (fun e' t => Reconciler.run t e') l e0))
    = View.editorRef (Reconciler.view e0)
    /\ Reconciler.store (fold_left (fun e' t => Reconciler.run t e') l e0) = Reconciler.store e0.
Proof.
  induction l as [|[] l IH]; intros e0; cbn [fold_left]; [auto|].
  destruct (IH (Reconciler.run Reconciler.ClearUpdating e0)) as [H1 H2].
  rewrite H1, H2. cbn. auto.
Qed.

Lemma drain_keeps (n : nat) :
  forall e : Reconciler.editor,
    View.editorRef (Reconciler.view (Reconciler.drain n e)) = View.editorRef (Reconciler.view e)
    /\ Reconciler.store (Reconciler.drain n e) = Reconciler.store e.
Proof.
  induction n as [|n IH]; intros e; cbn [Reconciler.drain]; [auto|].
  destruct (IH (Reconciler.checkpoint (Reconciler.run_timer e))) as [H1 H2].
  rewrite H1, H2. unfold Reconciler.checkpoint.
  destruct (run_tasks_keeps (Reconciler.microtasks (Reconciler.run_timer e))
              {| Reconciler.view := Reconciler.view (Reconciler.run_timer e);
                 Reconciler.store := Reconciler.store (Reconciler.run_timer e);
                 Reconciler.timers := Reconciler.timers (Reconciler.run_timer e);
                 Reconciler.microtasks := [] |}) as [H3 H4].
  rewrite H3, H4. cbn. apply run_timer_keeps.
Qed.

(** X10: an input event is not echoed back into the view.  In an editor on
    its own store, [handleInput] leaves the store's content equal to the
    markup of the editable region; the content effect run with that content
    leaves the view as it is, right after the event and also once all
    pending timers have run and the suppression flag is down again. *)
Theorem input_is_not_echoed :
  forall (resolve : Loro.snapshot -> Loro.snapshot -> jsstring)
         (parseFragment : jsstring -> list node)
         (e : Reconciler.editor) (children : list node),
    View.editorRef (Reconciler.view e) = Some children ->
    Store.reachable resolve (Reconciler.store e) ->
    let e1 := Reconciler.handleInput None e in
    let e2 := Reconciler.drain (List.length (Reconciler.timers e1)) e1 in
    Store.content (Reconciler.store e1) = innerHTML children
    /\ View.sync_content parseFragment (Store.content (Reconciler.store e1)) (Reconciler.view e1)
       = Reconciler.view e1
    /\ View.sync_content parseFragment (Store.content (Reconciler.store e2)) (Reconciler.view e2)
       = Reconciler.view e2.
Proof.
  intros resolve parseFragment e children Hed Hr e1 e2.
  apply reachable_settled, settled_at_rest in Hr as (d & Hst & Hp & _).
  assert (H1 : Store.content (Reconciler.store e1) = innerHTML children
               /\ View.editorRef (Reconciler.view e1) = Some children).
  { unfold e1, Reconciler.handleInput. rewrite Hed, or_string_empty.
    cbn [Reconciler.set_updating Reconciler.store]. rewrite Hst.
    rewrite updateContent_at_rest by assumption. cbn. split; [apply text_updated|exact Hed]. }
  destruct H1 as [Hc Hed1]. split; [exact Hc|]. split.
  - rewrite Hc. now apply sync_content_same_markup.
  - destruct (drain_keeps (List.length (Reconciler.timers e1)) e1) as [Hed2 Hst2].
    fold e2 in Hed2, Hst2. rewrite Hst2, Hc.
    apply sync_content_same_markup. now rewrite Hed2.
Qed.

Lemma input_is_not_echoed_witness :
  Store.content (Reconciler.store
                   (Reconciler.handleInput None
                      (Reconciler.typed [Text (js "a")] Reconciler.mounted)))
  = js "a".
Proof.
  apply (proj1 (input_is_not_echoed no_resolve (fun _ => [])
                  (Reconciler.typed [Text (js "a")] Reconciler.mounted) [Text (js "a")]
                  eq_refl (Store.reach_mount no_resolve))).
Defined.

(* ===================================================================== *)
(** * Mentions and slash commands *)
(* ===================================================================== *)

Lemma forallb_is_word_app (a b : jsstring) :
  forallb is_word (a ++ b) = forallb is_word a && forallb is_word b.
Proof. apply forallb_app. Qed.

Lemma match_mention_sound (text q : jsstring) :
  Popup.match_mention text = Some q ->
  forallb is_word q = true /\ exists prefix, text = prefix ++ "@"%char :: q.
Proof.
  induction text as [|c rest IH]; cbn [Popup.match_mention]; [discriminate|].
  destruct (ascii_dec c "@") as [->|Hc]; cbn [andb].
  - destruct (forallb is_word rest) eqn:Hw.
    + intros [= <-]. split; [exact Hw|]. now exists [].
    + intros H. destruct (IH H) as (Hq & prefix & ->). split; [exact Hq|].
      now exists ("@"%char :: prefix).
  - intros H. destruct (IH H) as (Hq & prefix & ->). split; [exact Hq|].
    now exists (c :: prefix).
Qed.

(** X11: the mention popup opens exactly when the text before the caret
    ends with an at sign followed by word characters only (possibly none),
    and the query is what follows that at sign. *)
Theorem mention_trigger :
  forall (text q : jsstring),
    Popup.match_mention text = Some q
    <-> (forallb is_word q = true /\ exists prefix, text = prefix ++ "@"%char :: q).
Proof.
  intros text q. split; [apply match_mention_sound|].
  - intros (Hq & prefix & ->).
    induction prefix as [|c prefix IH]; cbn [app Popup.match_mention].
    + destruct (ascii_dec "@" "@"); [|congruence]. now rewrite Hq.
    + rewrite forallb_is_word_app. cbn [forallb].
      change (is_word "@") with false. cbn [andb]. rewrite andb_false_r, andb_false_r.
      exact IH.
Qed.

Lemma is_ws_not_word (c : ascii) : is_ws c = true -> is_word c = false.
Proof.
  destruct c as [[] [] [] [] [] [] [] []]; vm_compute; congruence.
Qed.

Lemma slash_here_spec (text q : jsstring) :
  Popup.slash_here text = Some q <-> (forallb is_word q = true /\ text = "/"%char :: q).
Proof.
  unfold Popup.slash_here. destruct text as [|c rest]; [split; [discriminate|intros [_ [=]]]|].
  destruct (ascii_dec c "/") as [->|Hc]; cbn [andb].
  - destruct (forallb is_word rest) eqn:Hw; split.
    + intros [= <-]. auto.
    + intros [_ [= <-]]. reflexivity.
    + discriminate.
    + intros [Hq [= <-]]. congruence.
  - split; [discriminate|]. intros [_ [= -> _]]. congruence.
Qed.

Lemma slash_here_broken (x : ascii) (a b : jsstring) (c : ascii) :
  is_word c = false -> Popup.slash_here (x :: a ++ c :: b) = None.
Proof.
  intros Hc. unfold Popup.slash_here.
  rewrite forallb_is_word_app. cbn [forallb]. rewrite Hc.
  cbn [andb]. now rewrite !andb_false_r.
Qed.

Lemma slash_after_space_sound (q t : jsstring) :
  Popup.slash_after_space t = Some q ->
  forallb is_word q = true
  /\ exists prefix c, is_ws c = true /\ t = prefix ++ c :: "/"%char :: q.
Proof.
  induction t as [|c rest IH]; cbn [Popup.slash_after_space]; [discriminate|].
  destruct (is_ws c) eqn:Hc.
  - destruct (Popup.slash_here rest) as [q'|] eqn:E.
    + intros [= ->]. apply slash_here_spec in E as [Hq ->]. split; [exact Hq|].
      now exists [], c.
    + intros H. destruct (IH H) as (Hq & prefix & c' & Hc' & ->).
      split; [exact Hq|]. now exists (c :: prefix), c'.
  - intros H. destruct (IH H) as (Hq & prefix & c' & Hc' & ->).
    split; [exact Hq|]. now exists (c :: prefix), c'.
Qed.

Lemma match_slash_sound (text q : jsstring) :
  Popup.match_slash text = Some q ->
  forallb is_word q = true
  /\ (text = "/"%char :: q
      \/ exists prefix c, is_ws c = true /\ text = prefix ++ c :: "/"%char :: q).
Proof.
  unfold Popup.match_slash. destruct (Popup.slash_here text) as [q'|] eqn:E.
  - intros [= ->]. apply slash_here_spec in E as [Hq ->]. auto.
  - intros H. destruct (slash_after_space_sound q text H) as (Hq & Hex). auto.
Qed.

(** X12: the slash menu opens exactly when the text before the caret ends
    with a slash followed by word characters only, the slash being the
    first character of the text or coming right after a white-space
    character; a slash inside a word, as in a/b, does not open it. *)
Theorem slash_trigger :
  forall (text q : jsstring),
    Popup.match_slash text = Some q
    <-> (forallb is_word q = true
         /\ (text = "/"%char :: q
             \/ exists prefix c, is_ws c = true /\ text = prefix ++ c :: "/"%char :: q)).
Proof.
  intros text q.
  split; [apply match_slash_sound|].
  - intros (Hq & [->|(prefix & c & Hc & ->)]); unfold Popup.match_slash.
    + now rewrite (proj2 (slash_here_spec ("/"%char :: q) q) (conj Hq eq_refl)).
    + assert (Hnone : Popup.slash_here (prefix ++ c :: "/"%char :: q) = None).
      { destruct prefix as [|x prefix]; cbn [app].
        - unfold Popup.slash_here. destruct (ascii_dec c "/") as [->|]; [discriminate Hc|reflexivity].
        - apply slash_here_broken. now apply is_ws_not_word. }
      rewrite Hnone. clear Hnone.
      induction prefix as [|x prefix IH]; cbn [app Popup.slash_after_space].
      * rewrite Hc. now rewrite (proj2 (slash_here_spec ("/"%char :: q) q) (conj Hq eq_refl)).
      * destruct (is_ws x); [|exact IH].
        replace (Popup.slash_here (prefix ++ c :: "/"%char :: q)) with (@None jsstring);
          [exact IH|].
        symmetry. destruct prefix as [|y prefix]; cbn [app].
        -- unfold Popup.slash_here. destruct (ascii_dec c "/") as [->|]; [discriminate Hc|reflexivity].
        -- apply slash_here_broken. now apply is_ws_not_word.
Qed.

Lemma slice_to (s : jsstring) (n : nat) : slice s 0 (Some (Z.of_nat n)) = firstn n s.
Proof.
  unfold slice, slice_index. cbn [Z.ltb Z.compare].
  destruct (Z.ltb_spec (Z.of_nat n) 0); [lia|].
  replace (Z.to_nat (Z.min 0 (Z.of_nat (List.length s)))) with 0 by lia.
  cbn [skipn].
  replace (Z.min 0 (Z.of_nat (List.length s))) with 0%Z by lia.
  rewrite Z.sub_0_r.
  destruct (Nat.le_gt_cases n (List.length s)).
  - now replace (Z.to_nat (Z.min (Z.of_nat n) (Z.of_nat (List.length s)))) with n by lia.
  - replace (Z.to_nat (Z.min (Z.of_nat n) (Z.of_nat (List.length s)))) with (List.length s) by lia.
    rewrite firstn_all. symmetry. apply firstn_all2. lia.
Qed.

Lemma slice_from (s : jsstring) (n : nat) : slice s (Z.of_nat n) None = skipn n s.
Proof.
  unfold slice, slice_index.
  destruct (Z.ltb_spec (Z.of_nat n) 0); [lia|].
  destruct (Nat.le_gt_cases n (List.length s)).
  - replace (Z.to_nat (Z.min (Z.of_nat n) (Z.of_nat (List.length s)))) with n by lia.
    apply firstn_all2. rewrite length_skipn. lia.
  - replace (Z.to_nat (Z.min (Z.of_nat n) (Z.of_nat (List.length s)))) with (List.length s) by lia.
    rewrite skipn_all. rewrite (skipn_all2 s) by lia. now destruct (Z.to_nat _).
Qed.

Lemma lastIndexOf_from_app (c : ascii) (a b : jsstring) (i found : Z) :
  lastIndexOf_from c (a ++ b) i found
  = lastIndexOf_from c b (i + Z.of_nat (List.length a)) (lastIndexOf_from c a i found).
Proof.
  revert i found. induction a as [|x a IH]; intros i found; cbn [app lastIndexOf_from List.length].
  - now rewrite Z.add_0_r.
  - rewrite IH. f_equal. lia.
Qed.

Lemma lastIndexOf_from_absent (c : ascii) (q : jsstring) (i found : Z) :
  ~ In c q -> lastIndexOf_from c q i found = found.
Proof.
  revert i found. induction q as [|x q IH]; intros i found Hn; cbn [lastIndexOf_from]; [reflexivity|].
  destruct (ascii_dec x c) as [->|_]; [exfalso; apply Hn; now left|].
  apply IH. intros H. apply Hn. now right.
Qed.

Lemma lastIndexOf_last (c : ascii) (prefix q : jsstring) :
  ~ In c q -> lastIndexOf (prefix ++ c :: q) c = Z.of_nat (List.length prefix).
Proof.
  intros Hn. unfold lastIndexOf. rewrite lastIndexOf_from_app. cbn [lastIndexOf_from].
  destruct (ascii_dec c c); [|congruence].
  now rewrite lastIndexOf_from_absent.
Qed.

Lemma word_not (c : ascii) (q : jsstring) :
  is_word c = false -> forallb is_word q = true -> ~ In c q.
Proof.
  intros Hc Hq Hin. rewrite forallb_forall in Hq. specialize (Hq c Hin). congruence.
Qed.

Lemma remove_trigger_splice (trigger : ascii) (text prefix q : jsstring) (cursorPos : nat) :
  ~ In trigger q ->
  firstn cursorPos text = prefix ++ trigger :: q ->
  text = prefix ++ trigger :: q ++ skipn cursorPos text
  /\ Popup.remove_trigger trigger text cursorPos
     = (prefix ++ skipn cursorPos text, Z.of_nat (List.length prefix)).
Proof.
  intros Hn Hb.
  assert (Ht : text = prefix ++ trigger :: q ++ skipn cursorPos text).
  { rewrite <- (firstn_skipn cursorPos text) at 1. rewrite Hb.
    now rewrite <- app_assoc. }
  split; [exact Ht|].
  unfold Popup.remove_trigger. rewrite slice_to, slice_from, Hb, lastIndexOf_last by exact Hn.
  rewrite slice_to. f_equal. f_equal.
  rewrite Ht at 1. rewrite firstn_app, Nat.sub_diag, firstn_all. cbn [firstn].
  now rewrite app_nil_r.
Qed.

(** X13: choosing an entry of an open popup.  When the slash menu is open
    for the text before the caret, [executeSlashCommand] leaves in the text
    node the text before the slash followed by the text after the caret,
    with the caret where the slash was.  When the mention popup is open,
    [insertMention] leaves four nodes where the text node stood: the text
    before the at sign, the span of the mention, a text node of one space,
    and the text after the caret, with the caret after the space; so the
    at sign and the query are replaced by the at sign, the name of the user
    and a space. *)
Theorem chosen_entry_replaces_the_query :
  forall (style : jsstring) (user : Popup.MentionUser)
         (textContent q : jsstring) (cursorPos : nat),
    (Popup.match_mention (slice textContent 0 (Some (Z.of_nat cursorPos))) = Some q ->
     exists prefix,
       textContent = prefix ++ "@"%char :: q ++ slice textContent (Z.of_nat cursorPos) None
       /\ Popup.insertMention style user textContent cursorPos
          = Some ([Text prefix; Popup.mentionSpan style user; Text (js " ");
                   Text (slice textContent (Z.of_nat cursorPos) None)], 3)
       /\ flat_map text_of
            [Text prefix; Popup.mentionSpan style user; Text (js " ");
             Text (slice textContent (Z.of_nat cursorPos) None)]
          = prefix ++ "@"%char :: Popup.name user ++ js " "
            ++ slice textContent (Z.of_nat cursorPos) None)
    /\ (Popup.match_slash (slice textContent 0 (Some (Z.of_nat cursorPos))) = Some q ->
        exists prefix,
          textContent = prefix ++ "/"%char :: q ++ slice textContent (Z.of_nat cursorPos) None
          /\ Popup.executeSlashCommand textContent cursorPos
             = Some (prefix ++ slice textContent (Z.of_nat cursorPos) None,
                     List.length prefix)).
Proof.
  intros style user textContent q cursorPos. rewrite slice_to, slice_from.
  assert (Hin : forall prefix : jsstring,
             (Z.of_nat (List.length prefix) <? 0)%Z
             || (Z.of_nat (List.length (prefix ++ skipn cursorPos textContent))
                 <? Z.of_nat (List.length prefix))%Z = false).
  { intros prefix. rewrite length_app. apply orb_false_iff. split; apply Z.ltb_ge; lia. }
  assert (Hmention : forall prefix,
             ~ In "@"%char q ->
             firstn cursorPos textContent = prefix ++ "@"%char :: q ->
             textContent = prefix ++ "@"%char :: q ++ skipn cursorPos textContent
             /\ Popup.insertMention style user textContent cursorPos
                = Some ([Text prefix; Popup.mentionSpan style user; Text (js " ");
                         Text (skipn cursorPos textContent)], 3)
             /\ flat_map text_of
                  [Text prefix; Popup.mentionSpan style user; Text (js " ");
                   Text (skipn cursorPos textContent)]
                = prefix ++ "@"%char :: Popup.name user ++ js " "
                  ++ skipn cursorPos textContent).
  { intros prefix Hq Hb.
    destruct (remove_trigger_splice "@" textContent prefix q cursorPos Hq Hb) as [Ht Hr].
    split; [exact Ht|]. split.
    - unfold Popup.insertMention. rewrite Hr, Hin, Nat2Z.id.
      rewrite firstn_app, Nat.sub_diag, firstn_all. cbn [firstn].
      rewrite app_nil_r, skipn_app, Nat.sub_diag, skipn_all. reflexivity.
    - cbn [flat_map text_of Popup.mentionSpan app]. rewrite ?app_nil_r.
      rewrite <- ?app_assoc. reflexivity. }
  assert (Hslash : forall prefix,
             ~ In "/"%char q ->
             firstn cursorPos textContent = prefix ++ "/"%char :: q ->
             textContent = prefix ++ "/"%char :: q ++ skipn cursorPos textContent
             /\ Popup.executeSlashCommand textContent cursorPos
                = Some (prefix ++ skipn cursorPos textContent, List.length prefix)).
  { intros prefix Hq Hb.
    destruct (remove_trigger_splice "/" textContent prefix q cursorPos Hq Hb) as [Ht Hr].
    split; [exact Ht|].
    unfold Popup.executeSlashCommand. now rewrite Hr, Hin, Nat2Z.id. }
  split; intros H.
  - apply match_mention_sound in H as (Hq & prefix & Hb).
    exists prefix. apply Hmention; [|exact Hb].
    apply word_not; [reflexivity|exact Hq].
  - apply match_slash_sound in H as (Hq & [Hb|(prefix & c & Hc & Hb)]).
    + exists []. apply Hslash; [|exact Hb].
      apply word_not; [reflexivity|exact Hq].
    + exists (prefix ++ [c]). apply Hslash.
      * apply word_not; [reflexivity|exact Hq].
      * now rewrite <- app_assoc.
Qed.

Lemma chosen_entry_replaces_the_query_witness :
  (exists prefix,
     js "hi @jo there" = prefix ++ "@"%char :: js "jo" ++ slice (js "hi @jo there") 6 None
     /\ Popup.insertMention (js "color: blue;")
          {| Popup.id := js "7"; Popup.name := js "Joan"; Popup.avatar := None |}
          (js "hi @jo there") 6
        = Some ([Text prefix;
                 Popup.mentionSpan (js "color: blue;")
                   {| Popup.id := js "7"; Popup.name := js "Joan"; Popup.avatar := None |};
                 Text (js " ");
                 Text (slice (js "hi @jo there") 6 None)], 3))
  /\ (exists prefix,
        js "a /h1 b" = prefix ++ "/"%char :: js "h1" ++ slice (js "a /h1 b") 5 None
        /\ Popup.executeSlashCommand (js "a /h1 b") 5
           = Some (prefix ++ slice (js "a /h1 b") 5 None, List.length prefix)).
Proof.
  split.
  - destruct (proj1 (chosen_entry_replaces_the_query (js "color: blue;")
                       {| Popup.id := js "7"; Popup.name := js "Joan"; Popup.avatar := None |}
                       (js "hi @jo there") (js "jo") 6) eq_refl)
      as (prefix & H1 & H2 & _).
    exists prefix. split; [exact H1|exact H2].
  - apply (proj2 (chosen_entry_replaces_the_query (js "color: blue;")
                    {| Popup.id := js "7"; Popup.name := js "Joan"; Popup.avatar := None |}
                    (js "a /h1 b") (js "h1") 5)).
    reflexivity.
Defined.

Lemma at_index_in_range {A : Type} (l : list A) (z : Z) :
  (0 <= z < Z.of_nat (List.length l))%Z ->
  exists x, Popup.at_index l (Some z) = Some x /\ In x l.
Proof.
  intros Hz. unfold Popup.at_index.
  destruct (Z.ltb_spec z 0); [lia|].
  destruct (nth_error l (Z.to_nat z)) as [x|] eqn:E.
  - exists x. split; [reflexivity|]. eapply nth_error_In, E.
  - apply nth_error_None in E. lia.
Qed.

Lemma arrowDown_value (n : nat) (i : Z) :
  (0 <= i < Z.of_nat n)%Z ->
  Popup.arrowDown n (Some i) = Some (if (i + 1 =? Z.of_nat n)%Z then 0 else i + 1)%Z.
Proof.
  intros Hi. unfold Popup.arrowDown, Popup.rem. cbn [option_map].
  destruct (Z.eqb_spec (Z.of_nat n) 0); [lia|]. f_equal.
  destruct (Z.eqb_spec (i + 1) (Z.of_nat n)) as [->|].
  - apply Z.rem_same. lia.
  - apply Z.rem_small. lia.
Qed.

Lemma arrowUp_value (n : nat) (i : Z) :
  (0 <= i < Z.of_nat n)%Z ->
  Popup.arrowUp n (Some i) = Some (if (i =? 0)%Z then Z.of_nat n - 1 else i - 1)%Z.
Proof.
  intros Hi. unfold Popup.arrowUp, Popup.rem. cbn [option_map].
  destruct (Z.eqb_spec (Z.of_nat n) 0); [lia|]. f_equal.
  rewrite Z.rem_mod_nonneg by lia.
  destruct (Z.eqb_spec i 0) as [->|].
  - replace (0 - 1 + Z.of_nat n)%Z with (Z.of_nat n - 1)%Z by lia.
    apply Z.mod_small. lia.
  - replace (i - 1 + Z.of_nat n)%Z with (i - 1 + 1 * Z.of_nat n)%Z by lia.
    rewrite Z_mod_plus_full. apply Z.mod_small. lia.
Qed.

(** X14: arrow keys in an open popup.  With a selected index inside a
    non-empty filtered list, ArrowDown and ArrowUp keep the index inside
    the list (wrapping round at its ends), each undoes the other, and Enter
    then picks an entry of the list; with an empty filtered list both keys
    turn the index into NaN, for which Enter picks nothing. *)
Theorem arrow_keys_stay_in_the_list :
  forall (A : Type) (l : list A) (i : Z),
    (0 <= i < Z.of_nat (List.length l))%Z ->
    (exists x, Popup.at_index l (Popup.arrowDown (List.length l) (Some i)) = Some x /\ In x l)
    /\ (exists x, Popup.at_index l (Popup.arrowUp (List.length l) (Some i)) = Some x /\ In x l)
    /\ Popup.arrowUp (List.length l) (Popup.arrowDown (List.length l) (Some i)) = Some i
    /\ Popup.arrowDown (List.length l) (Popup.arrowUp (List.length l) (Some i)) = Some i
    /\ Popup.arrowDown (List.length l) (Some (Z.of_nat (List.length l) - 1)%Z) = Some 0%Z
    /\ Popup.arrowUp (List.length l) (Some 0%Z) = Some (Z.of_nat (List.length l) - 1)%Z.
Proof.
  intros A l i Hi.
  rewrite (arrowDown_value (List.length l) i Hi), (arrowUp_value (List.length l) i Hi).
  split; [|split; [|split; [|split; [|split]]]].
  - apply at_index_in_range. destruct (Z.eqb_spec (i + 1) (Z.of_nat (List.length l))); lia.
  - apply at_index_in_range. destruct (Z.eqb_spec i 0); lia.
  - rewrite arrowUp_value by (destruct (Z.eqb_spec (i + 1) (Z.of_nat (List.length l))); lia).
    f_equal. destruct (Z.eqb_spec (i + 1) (Z.of_nat (List.length l))); cbn [Z.eqb].
    + lia.
    + destruct (Z.eqb_spec (i + 1) 0); lia.
  - rewrite arrowDown_value by (destruct (Z.eqb_spec i 0); lia).
    f_equal. destruct (Z.eqb_spec i 0).
    + destruct (Z.eqb_spec (Z.of_nat (List.length l) - 1 + 1) (Z.of_nat (List.length l))); lia.
    + destruct (Z.eqb_spec (i - 1 + 1) (Z.of_nat (List.length l))); lia.
  - rewrite arrowDown_value by lia.
    destruct (Z.eqb_spec (Z.of_nat (List.length l) - 1 + 1) (Z.of_nat (List.length l))); [reflexivity|lia].
  - rewrite arrowUp_value by lia. reflexivity.
Qed.

Lemma arrow_keys_stay_in_the_list_witness :
  Popup.arrowUp 3 (Popup.arrowDown 3 (Some 2%Z)) = Some 2%Z
  /\ Popup.arrowDown 3 (Some 2%Z) = Some 0%Z.
Proof.
  pose proof (arrow_keys_stay_in_the_list nat [1; 2; 3] 2%Z) as H.
  cbn [List.length] in H.
  assert (Hi : (0 <= 2 < Z.of_nat 3)%Z) by (cbn; lia).
  destruct (H Hi) as (_ & _ & Hud & _ & Hd & _).
  split; [exact Hud|exact Hd].
Defined.

(** X15: with an empty filtered list an arrow key turns the selected
    index into NaN whatever it was; the index then stays NaN under further
    arrow keys, also once the list has entries again, and Enter or Tab
    inserts nothing; the next input that keeps the popup open puts the
    index back to 0. *)
Theorem arrow_keys_on_an_empty_list :
  forall (A : Type) (l : list A) (prev : option Z) (n : nat)
         (text : jsstring) (p : Popup.popups),
    Popup.arrowDown 0 prev = None
    /\ Popup.arrowUp 0 prev = None
    /\ Popup.arrowDown n (Popup.arrowDown 0 prev) = None
    /\ Popup.arrowUp n (Popup.arrowUp 0 prev) = None
    /\ Popup.at_index l (Popup.arrowDown 0 prev) = None
    /\ Popup.at_index l (Popup.arrowUp 0 prev) = None
    /\ (Popup.showMentions (Popup.detect text p) = true ->
        Popup.selectedMentionIndex (Popup.detect text p) = Some 0%Z)
    /\ (Popup.showSlashMenu (Popup.detect text p) = true ->
        Popup.selectedCommandIndex (Popup.detect text p) = Some 0%Z).
Proof.
  intros A l prev n text p.
  assert (Hd : Popup.arrowDown 0 prev = None) by now destruct prev.
  assert (Hu : Popup.arrowUp 0 prev = None) by now destruct prev.
  rewrite Hd, Hu.
  split; [reflexivity|]. split; [reflexivity|]. split; [reflexivity|].
  split; [reflexivity|]. split; [reflexivity|]. split; [reflexivity|].
  unfold Popup.detect.
  destruct (Popup.match_mention text), (Popup.match_slash text); cbn;
    split; intros H; try reflexivity; discriminate H.
Qed.

(* ===================================================================== *)
(** * The popup filters *)
(* ===================================================================== *)

Lemma starts_with_spec (p s : jsstring) :
  starts_with p s = true <-> exists b, s = p ++ b.
Proof.
  revert s. induction p as [|a p IH]; intros s; cbn [starts_with].
  - split; [intros _; now exists s|reflexivity].
  - destruct s as [|x s].
    + split; [discriminate|intros [b [=]]].
    + destruct (ascii_dec a x) as [->|Hn]; cbn [andb].
      * rewrite IH. split; intros [b Hb]; exists b.
        -- now rewrite Hb.
        -- now injection Hb.
      * split; [discriminate|]. intros [b [= -> _]]. congruence.
Qed.

Lemma includes_str_spec (s sub : jsstring) :
  includes_str s sub = true <-> exists a b, s = a ++ sub ++ b.
Proof.
  induction s as [|x s IH].
  - cbn [includes_str]. rewrite orb_false_r, starts_with_spec. split.
    + intros [b Hb]. now exists [], b.
    + intros (a & b & H). destruct a; [now exists b|discriminate].
  - change (includes_str (x :: s) sub) with (starts_with sub (x :: s) || includes_str s sub).
    rewrite orb_true_iff, starts_with_spec, IH. split.
    + intros [[b Hb]|(a & b & Hab)].
      * now exists [], b.
      * exists (x :: a), b. now rewrite Hab.
    + intros (a & b & Hab). destruct a as [|y a].
      * left. now exists b.
      * right. exists a, b. now injection Hab.
Qed.

Lemma lower_char_idem (c : ascii) : lower_char (lower_char c) = lower_char c.
Proof.
  destruct c as [[] [] [] [] [] [] [] []]; vm_compute; reflexivity.
Qed.

Lemma toLowerCase_idem (s : jsstring) : toLowerCase (toLowerCase s) = toLowerCase s.
Proof.
  unfold toLowerCase. rewrite map_map. apply map_ext. exact lower_char_idem.
Qed.

(** X16: the lists of the mention dropdown and of the slash menu.  A user
    is listed exactly when the query, lower-cased, occurs inside the
    lower-cased name; a command exactly when it occurs inside its
    lower-cased label or one of its lower-cased keywords.  The empty query
    lists every entry, and lower-casing the query changes nothing. *)
Theorem popup_filters :
  forall (users : list Popup.MentionUser) (commands : list Popup.SlashCommand)
         (query : jsstring),
    (forall u, In u (Popup.filteredUsers users query)
               <-> In u users
                   /\ exists a b, toLowerCase (Popup.name u) = a ++ toLowerCase query ++ b)
    /\ (forall c, In c (Popup.filteredCommands commands query)
                  <-> In c commands
                      /\ exists k, (k = Popup.label c \/ In k (Popup.keywords c))
                                   /\ exists a b, toLowerCase k = a ++ toLowerCase query ++ b)
    /\ Popup.filteredUsers users [] = users
    /\ Popup.filteredCommands commands [] = commands
    /\ Popup.filteredUsers users (toLowerCase query) = Popup.filteredUsers users query
    /\ Popup.filteredCommands commands (toLowerCase query)
       = Popup.filteredCommands commands query.
Proof.
  intros users commands query.
  split; [|split; [|split; [|split; [|split]]]].
  - intros u. unfold Popup.filteredUsers. rewrite filter_In, includes_str_spec. reflexivity.
  - intros c. unfold Popup.filteredCommands.
    rewrite filter_In, orb_true_iff, existsb_exists, includes_str_spec.
    split; intros [Hin H]; (split; [exact Hin|]).
    + destruct H as [H|(k & Hk & H)].
      * exists (Popup.label c). auto.
      * apply includes_str_spec in H. exists k. auto.
    + destruct H as (k & [->|Hk] & H).
      * now left.
      * right. exists k. split; [exact Hk|]. now apply includes_str_spec.
  - unfold Popup.filteredUsers. apply forallb_filter_id. apply forallb_forall.
    intros u _. now destruct (toLowerCase (Popup.name u)).
  - unfold Popup.filteredCommands. apply forallb_filter_id. apply forallb_forall.
    intros c _. now destruct (toLowerCase (Popup.label c)).
  - unfold Popup.filteredUsers. now rewrite toLowerCase_idem.
  - unfold Popup.filteredCommands. now rewrite toLowerCase_idem.
Qed.

(* ===================================================================== *)
(** * The counts the editors show *)
(* ===================================================================== *)

Lemma truthy_rev (s : jsstring) : truthy (rev s) = truthy s.
Proof.
  destruct s as [|c s]; [reflexivity|]. cbn [rev truthy].
  now destruct (rev s).
Qed.

Lemma split_ws_from_count (s piece : jsstring) (in_space : bool) :
  (in_space = true -> piece = []) ->
  List.length (filter truthy (split_ws_from s piece in_space))
  = (if truthy piece then 1 else 0) + word_starts s (truthy piece).
Proof.
  revert piece in_space. induction s as [|c s IH]; intros piece in_space Hinv;
    cbn [split_ws_from word_starts].
  - cbn [filter]. rewrite truthy_rev. destruct (truthy piece); reflexivity.
  - destruct (is_ws c).
    + destruct in_space.
      * rewrite (Hinv eq_refl). rewrite IH by reflexivity. reflexivity.
      * cbn [filter]. rewrite truthy_rev.
        destruct (truthy piece); cbn [List.length]; rewrite IH by reflexivity; reflexivity.
    + rewrite IH by discriminate. cbn [truthy]. destruct (truthy piece); reflexivity.
Qed.

Lemma trimStart_split (s : jsstring) :
  exists w, s = w ++ trimStart s /\ forallb is_ws w = true.
Proof.
  induction s as [|c s (w & Hs & Hw)]; [now exists []|].
  cbn [trimStart]. destruct (is_ws c) eqn:Hc.
  - exists (c :: w). cbn [app forallb]. rewrite Hc, Hw. split; [now rewrite <- Hs|reflexivity].
  - now exists [].
Qed.

Lemma trimEnd_split (s : jsstring) :
  exists w, s = trimEnd s ++ w /\ forallb is_ws w = true.
Proof.
  destruct (trimStart_split (rev s)) as (w & Hs & Hw).
  exists (rev w). split.
  - unfold trimEnd. rewrite <- rev_app_distr, <- Hs. now rewrite rev_involutive.
  - rewrite forallb_forall in *. intros c Hc. apply Hw. now apply in_rev.
Qed.

Lemma word_starts_leading (w s : jsstring) (inside : bool) :
  forallb is_ws w = true -> w <> [] -> word_starts (w ++ s) inside = word_starts s false.
Proof.
  revert inside. induction w as [|c w IH]; intros inside Hw Hne; [congruence|].
  cbn [forallb] in Hw. apply andb_true_iff in Hw as [Hc Hw].
  cbn [app word_starts]. rewrite Hc.
  destruct w as [|c' w]; [reflexivity|]. apply IH; [exact Hw|discriminate].
Qed.

Lemma word_starts_trailing (s w : jsstring) (inside : bool) :
  forallb is_ws w = true -> word_starts (s ++ w) inside = word_starts s inside.
Proof.
  intros Hw. revert inside. induction s as [|c s IH]; intros inside.
  - cbn [app]. destruct w as [|c w]; [reflexivity|].
    rewrite <- (app_nil_r (c :: w)). rewrite word_starts_leading; [reflexivity|exact Hw|discriminate].
  - cbn [app word_starts]. now rewrite !IH.
Qed.

Lemma word_starts_trim (s : jsstring) : word_starts (trim s) false = word_starts s false.
Proof.
  unfold trim.
  destruct (trimStart_split s) as (w & Hs & Hw).
  destruct (trimEnd_split (trimStart s)) as (w' & Hs' & Hw').
  remember (trimStart s) as t eqn:Et. remember (trimEnd t) as e eqn:Ee.
  assert (H1 : word_starts s false = word_starts t false).
  { rewrite Hs. destruct w as [|c w]; [reflexivity|].
    apply word_starts_leading; [exact Hw|discriminate]. }
  rewrite H1, Hs'. symmetry. now apply word_starts_trailing.
Qed.

Lemma count_words_spec (text : jsstring) : count_words text = word_starts text false.
Proof.
  unfold count_words, split_ws. rewrite split_ws_from_count by discriminate.
  cbn [truthy]. apply word_starts_trim.
Qed.

Lemma split_char_from_length (c : ascii) (s piece : jsstring) :
  List.length (split_char_from c s piece) = S (count_occ ascii_dec s c).
Proof.
  revert piece. induction s as [|x s IH]; intros piece; cbn [split_char_from count_occ]; [reflexivity|].
  destruct (ascii_dec x c); cbn [List.length]; now rewrite IH.
Qed.

Lemma word_starts_bound (s : jsstring) (inside : bool) : word_starts s inside <= List.length s.
Proof.
  revert inside. induction s as [|c s IH]; intros inside; cbn [word_starts List.length]; [lia|].
  destruct (is_ws c).
  - specialize (IH false). lia.
  - specialize (IH true). destruct inside; lia.
Qed.

Lemma word_starts_zero (s : jsstring) :
  word_starts s false = 0 <-> forallb is_ws s = true.
Proof.
  induction s as [|c s IH]; cbn [word_starts forallb]; [tauto|].
  destruct (is_ws c); cbn [andb]; [exact IH|]. split; [discriminate|discriminate].
Qed.

(** X17: the statistics of the editor.  The word count is the number of
    maximal runs of characters that are not white space (0 exactly for a
    text of white space only, and never more than the character count);
    the line count is one more than the number of line feeds, so an empty
    editor, or one that is not mounted, has 0 characters, 0 words and 1
    line. *)
Theorem editor_stats_counts :
  forall (textContent : option jsstring) (blocks_length : nat),
    let text := match textContent with Some t => t | None => [] end in
    let s := editor_stats textContent blocks_length in
    chars s = List.length text
    /\ words s = word_starts text false
    /\ (words s = 0 <-> forallb is_ws text = true)
    /\ words s <= chars s
    /\ lines s = S (count_occ ascii_dec text LF)
    /\ blocks s = blocks_length.
Proof.
  intros textContent blocks_length text s. subst s. unfold editor_stats.
  fold text. rewrite or_string_empty. cbn [chars words lines blocks].
  rewrite count_words_spec.
  split; [reflexivity|]. split; [reflexivity|]. split; [apply word_starts_zero|].
  split; [apply word_starts_bound|]. split; [apply split_char_from_length|reflexivity].
Qed.

Lemma no_gt_app (a b : jsstring) : no_gt (a ++ b) = no_gt a && no_gt b.
Proof. apply forallb_app. Qed.

Lemma strip_open (body rest p : jsstring) :
  no_gt body = true ->
  strip_tags_from (body ++ ">"%char :: rest) (Some p) = strip_tags_from rest None.
Proof.
  revert p. induction body as [|c body IH]; intros p Hb; cbn [app strip_tags_from].
  - reflexivity.
  - cbn [no_gt forallb] in Hb. destruct (ascii_dec c ">"); [discriminate Hb|].
    apply IH. exact Hb.
Qed.

Lemma strip_tag (body rest : jsstring) :
  no_gt body = true ->
  strip_tags_from ("<"%char :: body ++ ">"%char :: rest) None = strip_tags_from rest None.
Proof.
  intros Hb. cbn [strip_tags_from].
  try (destruct (ascii_dec "<" "<"); [|congruence]).
  now apply strip_open.
Qed.

Lemma strip_text (t rest : jsstring) :
  ~ In "<"%char t ->
  strip_tags_from (t ++ rest) None = t ++ strip_tags_from rest None.
Proof.
  induction t as [|c t IH]; intros Hn; cbn [app strip_tags_from]; [reflexivity|].
  destruct (ascii_dec c "<") as [->|_]; [exfalso; apply Hn; now left|].
  f_equal. apply IH. intros H. apply Hn. now right.
Qed.

Lemma escape_no_lt (s : jsstring) : ~ In "<"%char (escape false s).
Proof.
  unfold escape. rewrite in_flat_map. intros (c & _ & Hc).
  unfold escape_char in Hc.
  destruct (ascii_dec c "&"); [cbn in Hc; intuition discriminate|].
  destruct (ascii_dec c nbsp); [cbn in Hc; intuition discriminate|].
  destruct (ascii_dec c "<"); [cbn in Hc; intuition discriminate|].
  destruct (ascii_dec c ">"); [cbn in Hc; intuition discriminate|].
  destruct Hc as [Hc|[]]. congruence.
Qed.

Lemma escape_attribute_no_gt (s : jsstring) : no_gt s = true -> no_gt (escape true s) = true.
Proof.
  induction s as [|c s IH]; [reflexivity|].
  cbn [no_gt forallb]. fold (no_gt s). intros H. apply andb_true_iff in H as [Hc Hs].
  change (escape true (c :: s)) with (escape_char true c ++ escape true s).
  rewrite no_gt_app, (IH Hs), andb_true_r.
  unfold escape_char.
  destruct (ascii_dec c "&"); [reflexivity|].
  destruct (ascii_dec c nbsp); [reflexivity|].
  destruct (ascii_dec c quot); [reflexivity|].
  cbn [no_gt forallb]. now rewrite Hc.
Qed.

Lemma attributes_no_gt (attrs : list (jsstring * jsstring)) :
  forallb (fun a => no_gt (fst a) && no_gt (snd a)) attrs = true ->
  no_gt (flat_map serialize_attribute attrs) = true.
Proof.
  induction attrs as [|a attrs IH]; [reflexivity|].
  cbn [forallb flat_map]. intros H. apply andb_true_iff in H as [Ha Hs].
  apply andb_true_iff in Ha as [Hn Hv].
  rewrite no_gt_app, (IH Hs), andb_true_r.
  unfold serialize_attribute. rewrite !no_gt_app, Hn, (escape_attribute_no_gt _ Hv).
  reflexivity.
Qed.

Lemma escape_app (m : bool) (a b : jsstring) : escape m (a ++ b) = escape m a ++ escape m b.
Proof. apply flat_map_app. Qed.

Lemma strip_serialize (n : node) :
  tame n = true ->
  forall rest,
    strip_tags_from (serialize false n ++ rest) None
    = escape false (text_of n) ++ strip_tags_from rest None.
Proof.
  induction n as [ns name attrs children IH|data|data] using node_rect'; intros Ht rest.
  - cbn [tame] in Ht.
    apply andb_true_iff in Ht as [Ht Hchildren].
    apply andb_true_iff in Ht as [Ht Hvoid].
    apply andb_true_iff in Ht as [Ht Hraw].
    apply andb_true_iff in Ht as [Hname Hattrs].
    apply negb_true_iff in Hraw.
    assert (Hkids : forall rest',
               strip_tags_from (flat_map (serialize false) children ++ rest') None
               = escape false (flat_map text_of children) ++ strip_tags_from rest' None).
    { clear Hvoid. induction children as [|k children IHc]; intros rest'; [reflexivity|].
      cbn [flat_map]. cbn [forallb] in Hchildren.
      apply andb_true_iff in Hchildren as [Hk Hks].
      rewrite <- app_assoc, escape_app, <- app_assoc.
      rewrite (Forall_inv IH Hk). f_equal.
      apply IHc; [exact (Forall_inv_tail IH)|exact Hks]. }
    cbn [serialize text_of]. rewrite Hraw.
    change (js "<") with ["<"%char]. change (js ">") with [">"%char].
    cbn [app]. rewrite <- !app_assoc. cbn [app].
    rewrite app_assoc.
    rewrite strip_tag by (rewrite no_gt_app, Hname; now apply attributes_no_gt).
    destruct (html_element void_elements ns name).
    + cbn [negb orb] in Hvoid. destruct children; [|discriminate Hvoid]. reflexivity.
    + rewrite <- app_assoc, Hkids. f_equal.
      change (js "</") with ("<"%char :: ["/"%char]). cbn [app].
      rewrite <- app_assoc. cbn [app].
      change ("/"%char :: name ++ ">"%char :: rest)
        with (("/"%char :: name) ++ ">"%char :: rest).
      apply strip_tag. cbn [no_gt forallb]. exact Hname.
  - cbn [serialize text_of]. apply strip_text, escape_no_lt.
  - cbn [serialize text_of tame] in *. cbn [escape flat_map app].
    change (js "<!--") with ("<"%char :: js "!--"). change (js "-->") with (js "--" ++ [">"%char]).
    cbn [app]. rewrite <- !app_assoc. cbn [app].
    replace (js "!--" ++ data ++ js "--" ++ ">"%char :: rest)
      with ((js "!--" ++ data ++ js "--") ++ ">"%char :: rest)
      by now rewrite <- !app_assoc.
    apply strip_tag. rewrite !no_gt_app, Ht. reflexivity.
Qed.

Lemma escape_length (s : jsstring) : List.length s <= List.length (escape false s).
Proof.
  induction s as [|c s IH]; [cbn; lia|].
  change (escape false (c :: s)) with (escape_char false c ++ escape false s).
  rewrite length_app. cbn [List.length].
  assert (1 <= List.length (escape_char false c)).
  { unfold escape_char.
    destruct (ascii_dec c "&"); [cbn; lia|].
    destruct (ascii_dec c nbsp); [cbn; lia|].
    destruct (ascii_dec c "<"); [cbn; lia|].
    destruct (ascii_dec c ">"); [cbn; lia|]. cbn; lia. }
  lia.
Qed.

(** X18: the footer of the block editor.  For content that is the markup
    of a tree whose only [>] characters end tags, removing the tags leaves
    the text of the tree with its entities still spelled out; the
    Characters count is therefore the length of the escaped text, at least
    the length of the text itself, and the Words count is the number of
    words of the escaped text. *)
Theorem footer_counts_the_escaped_text :
  forall (children : list node),
    forallb tame children = true ->
    strip_tags (innerHTML children) = escape false (flat_map text_of children)
    /\ footer_characters (innerHTML children)
       = List.length (escape false (flat_map text_of children))
    /\ List.length (flat_map text_of children) <= footer_characters (innerHTML children)
    /\ footer_words (innerHTML children)
       = word_starts (escape false (flat_map text_of children)) false.
Proof.
  intros children Ht.
  assert (H : strip_tags (innerHTML children) = escape false (flat_map text_of children)).
  { unfold strip_tags, innerHTML.
    rewrite <- (app_nil_r (flat_map (serialize false) children)).
    rewrite <- (app_nil_r (escape false (flat_map text_of children))).
    change (@nil ascii) with (strip_tags_from [] None) at 2.
    generalize (@nil ascii) as rest.
    induction children as [|k children IH]; intros rest; [reflexivity|].
    cbn [flat_map]. cbn [forallb] in Ht. apply andb_true_iff in Ht as [Hk Hks].
    rewrite <- app_assoc, escape_app, <- app_assoc.
    rewrite (strip_serialize k Hk). f_equal. now apply IH. }
  unfold footer_characters, footer_words. rewrite H, count_words_spec.
  split; [reflexivity|]. split; [reflexivity|]. split; [apply escape_length|reflexivity].
Qed.

Lemma footer_counts_the_escaped_text_witness :
  footer_characters
    (innerHTML [Element HTML (js "p") [(js "class", js "x")] [Text (js "a&b")];
                Element HTML (js "br") [] []]) = 7
  /\ List.length (js "a&b") <= 7.
Proof.
  pose proof (footer_counts_the_escaped_text
                [Element HTML (js "p") [(js "class", js "x")] [Text (js "a&b")];
                 Element HTML (js "br") [] []] eq_refl) as (_ & Hc & Hl & _).
  split; [exact Hc|exact Hl].
Defined.

(* ===================================================================== *)
(** * The performance tests *)
(* ===================================================================== *)

Lemma escape_digits (d : Decimal.uint) :
  escape false (js (NilEmpty.string_of_uint d)) = js (NilEmpty.string_of_uint d).
Proof.
  induction d as [|d IH|d IH|d IH|d IH|d IH|d IH|d IH|d IH|d IH|d IH];
    [reflexivity|..];
    cbn [NilEmpty.string_of_uint]; unfold js in *; cbn [list_ascii_of_string];
    change (escape false (?c :: ?s)) with (escape_char false c ++ escape false s);
    rewrite IH; reflexivity.
Qed.

Lemma escape_Number_toString (n : nat) :
  escape false (Number_toString n) = Number_toString n.
Proof. apply escape_digits. Qed.

Lemma escape_paragraph (k : nat) :
  escape false (nth k paragraphTypes []) = nth k paragraphTypes [].
Proof.
  do 5 (destruct k as [|k]; [reflexivity|]). now destruct k.
Qed.

Lemma escape_cons (m : bool) (c : ascii) (s : jsstring) :
  escape m (c :: s) = escape_char m c ++ escape m s.
Proof. reflexivity. Qed.

Lemma block_tree_markup (i : nat) : outerHTML (block_tree i) = block_markup i.
Proof.
  unfold block_tree, block_markup, outerHTML.
  pose proof (escape_Number_toString (i + 1)) as HN.
  pose proof (escape_paragraph (i mod List.length paragraphTypes)) as Hp.
  revert HN Hp.
  generalize (Number_toString (i + 1)) as N.
  generalize (nth (i mod List.length paragraphTypes) paragraphTypes []) as paragraph.
  intros paragraph N HN Hp.
  cbv zeta.
  repeat match goal with
         | |- context [if ?b then _ else _] => destruct b
         end;
    cbn [serialize flat_map app];
    repeat match goal with
           | |- context [html_element ?l ?ns ?x] =>
               let v := eval vm_compute in (html_element l ns x) in
               change (html_element l ns x) with v
           end;
    cbv iota; cbn [serialize flat_map app];
    repeat (rewrite escape_app || rewrite escape_cons); rewrite ?HN, ?Hp;
    repeat match goal with
           | |- context [escape false (js ?x)] =>
               let v := eval vm_compute in (escape false (js x)) in
               change (escape false (js x)) with v
           | |- context [escape_char false ?c] =>
               let v := eval vm_compute in (escape_char false c) in
               change (escape_char false c) with v
           end;
    unfold js; cbn [list_ascii_of_string app];
    repeat (rewrite ?app_nil_r, <- ?app_assoc; cbn [app]); reflexivity.
Qed.

Ltac eval_closed :=
  repeat match goal with
         | |- context [toLowerCase (tagName ?ns (js ?x))] =>
             let v := eval vm_compute in (toLowerCase (tagName ns (js x))) in
             change (toLowerCase (tagName ns (js x))) with v
         end;
  repeat match goal with
         | |- context [includes ?l ?x] =>
             let v := eval vm_compute in (includes l x) in
             change (includes l x) with v
         | |- context [jsstring_eqb ?a ?b] =>
             let v := eval vm_compute in (jsstring_eqb a b) in
             change (jsstring_eqb a b) with v
         end.

Lemma processNode_block_tree (i : nat) (st : pass) :
  processNode (block_tree i) st = push (block_markup i) (block_kind i) st.
Proof.
  rewrite <- block_tree_markup. unfold block_tree, block_kind. cbv zeta.
  generalize (nth (i mod List.length paragraphTypes) paragraphTypes []) as paragraph.
  generalize (Number_toString (i + 1)) as N.
  intros N paragraph.
  pose proof (Nat.mod_upper_bound i 10) as Hlt.
  remember (i mod 10) as t eqn:Et. clear Et.
  do 10 (destruct t as [|t];
         [cbn [Nat.eqb Nat.ltb Nat.leb]; cbn [processNode]; eval_closed;
          cbv iota; cbn [orb]; reflexivity|]).
  lia.
Qed.

Lemma fold_block_trees (n a : nat) (st : pass) :
  fold_left (fun st' c => processNode c st') (map block_tree (seq a n)) st
  = fold_left (fun st' i => push (block_markup i) (block_kind i) st') (seq a n) st.
Proof.
  revert a st. induction n as [|n IH]; intros a st; cbn [seq map fold_left]; [reflexivity|].
  rewrite processNode_block_tree. apply IH.
Qed.

Lemma fold_push_blocks (n a : nat) (bs : list EditorBlock) :
  fold_left (fun st' i => push (block_markup i) (block_kind i) st') (seq a n) (bs, a)
  = (bs ++ map (fun i => {| id := js "block-" ++ Number_toString i;
                            content := block_markup i;
                            type := block_kind i |}) (seq a n),
     a + n).
Proof.
  revert a bs. induction n as [|n IH]; intros a bs; cbn [seq map fold_left].
  - now rewrite app_nil_r, Nat.add_0_r.
  - unfold push at 2. cbn [fst snd]. rewrite IH, <- app_assoc. cbn [app].
    f_equal. lia.
Qed.

Lemma emitted_block_trees (count : nat) :
  emitted (map block_tree (seq 0 count))
  = map (fun i => {| id := js "block-" ++ Number_toString i;
                     content := block_markup i;
                     type := block_kind i |}) (seq 0 count).
Proof.
  unfold emitted. now rewrite fold_block_trees, fold_push_blocks.
Qed.

Lemma fold_left_snoc (A B : Type) (f : B -> list A) (l : list B) (acc : list A) :
  fold_left (fun acc' i => acc' ++ f i) l acc = acc ++ flat_map f l.
Proof.
  revert acc. induction l as [|x l IH]; intros acc; cbn [fold_left flat_map].
  - now rewrite app_nil_r.
  - now rewrite IH, app_assoc.
Qed.

Lemma generateBlocks_markup (count : nat) :
  PerformanceTest.generateBlocks count = flat_map block_markup (seq 0 count).
Proof. unfold PerformanceTest.generateBlocks. now rewrite fold_left_snoc. Qed.

Lemma generateBlocks_list (count : nat) :
  App.generateBlocks count
  = map (fun i => {| App.id := js "block-" ++ Number_toString i;
                     App.content := block_markup i |}) (seq 0 count).
Proof.
  unfold App.generateBlocks.
  rewrite (fold_left_snoc App.Block nat
             (fun i => [{| App.id := js "block-" ++ Number_toString i;
                           App.content := block_markup i |}])).
  cbn [app]. rewrite flat_map_concat_map.
  induction (seq 0 count) as [|x l IH]; cbn [map List.concat app]; [reflexivity|].
  now rewrite IH.
Qed.

Lemma block_markup_truthy (i : nat) : truthy (block_markup i) = true.
Proof.
  rewrite <- block_tree_markup. unfold block_tree. cbv zeta.
  repeat match goal with
         | |- context [if ?b then _ else _] => destruct b
         end; reflexivity.
Qed.

Lemma block_trees_markup (l : list nat) :
  innerHTML (map block_tree l) = flat_map block_markup l.
Proof.
  unfold innerHTML. induction l as [|i l IH]; cbn [map flat_map]; [reflexivity|].
  rewrite IH. f_equal. apply block_tree_markup.
Qed.

(** X19: the content of the performance test, segmented.  The content
    that generateBlocks(count) passes to the editor is the markup of count
    block elements; when the parser returns those elements, the editor's
    block list is the very list the block-list performance test builds by
    hand: count blocks, block i with the identifier block-i and the i-th
    piece of markup as its content; the kinds follow i modulo 10 (heading
    for 0 to 2, list for 3 and 4, blockquote for 5, code for 6, text
    otherwise), and the contents concatenated give the content back
    exactly. *)
Theorem generated_content_is_segmented :
  forall (parseFromString : jsstring -> document) (count : nat),
    body_childNodes (parseFromString (PerformanceTest.generateBlocks count))
    = map block_tree (seq 0 count) ->
    innerHTML (map block_tree (seq 0 count)) = PerformanceTest.generateBlocks count
    /\ map (fun b => {| App.id := id b; App.content := content b |})
           (blocks_memo parseFromString true (PerformanceTest.generateBlocks count))
       = App.generateBlocks count
    /\ map type (blocks_memo parseFromString true (PerformanceTest.generateBlocks count))
       = map block_kind (seq 0 count)
    /\ List.length (blocks_memo parseFromString true (PerformanceTest.generateBlocks count))
       = count
    /\ List.concat
         (map content (blocks_memo parseFromString true (PerformanceTest.generateBlocks count)))
       = PerformanceTest.generateBlocks count.
Proof.
  intros parseFromString count Hparse.
  assert (Hblocks : blocks_memo parseFromString true (PerformanceTest.generateBlocks count)
                    = map (fun i => {| id := js "block-" ++ Number_toString i;
                                       content := block_markup i;
                                       type := block_kind i |}) (seq 0 count)).
  { unfold blocks_memo, parseContentIntoBlocks. rewrite Hparse, emitted_block_trees.
    rewrite generateBlocks_markup. cbn [negb orb].
    destruct count as [|count]; [reflexivity|].
    cbn [seq flat_map]. 
    assert (Ht : truthy (block_markup 0 ++ flat_map block_markup (seq 1 count)) = true).
    { pose proof (block_markup_truthy 0) as H0. now destruct (block_markup 0). }
    rewrite Ht. cbn [negb]. reflexivity. }
  rewrite Hblocks, generateBlocks_markup, generateBlocks_list, !map_map.
  cbn [id content type].
  split; [apply block_trees_markup|]. split; [reflexivity|]. split; [reflexivity|].
  split; [now rewrite length_map, length_seq|].
  now rewrite flat_map_concat_map.
Qed.

Lemma generated_content_is_segmented_witness :
  List.length
    (blocks_memo (fun _ => {| body_childNodes := map block_tree (seq 0 12) |}) true
       (PerformanceTest.generateBlocks 12)) = 12.
Proof.
  apply (proj1 (proj2 (proj2 (proj2
           (generated_content_is_segmented
              (fun _ => {| body_childNodes := map block_tree (seq 0 12) |}) 12 eq_refl))))).
Defined.
